(** * Lineage hierarchy generation: label parsing, hierarchy construction
      and the order in which the hierarchy file is written.

    Shallow embedding of [scripts/generate_lineage_files.py].  A Python
    [str] is a [string], read as the bytes of its UTF-8 encoding: cutting
    at [_] and [.] and the code-point order of [str] are the same on the
    bytes.  The hierarchy [dict] is an insertion-ordered association
    list, and the two operations of the script that can raise ([l[0]] and
    [d[k]]) live in an exception monad. *)

From Stdlib Require Import String Ascii List Bool Arith Lia.
From Stdlib Require Import Permutation Sorted OrderedTypeEx.
Import ListNotations.
Local Open Scope string_scope.
Local Open Scope list_scope.

(** ** The fragment of the Python runtime the script relies on *)
Module Py.

Inductive exn : Type :=
| IndexError
| KeyError (k : string).

Inductive result (A : Type) : Type :=
| Ok (a : A)
| Raise (e : exn).
Arguments Ok {A} a.
Arguments Raise {A} e.

Definition bind {A B} (m : result A) (k : A -> result B) : result B :=
  match m with
  | Ok a => k a
  | Raise e => Raise e
  end.

(** [for x in xs: acc = body(acc, x)] *)
Fixpoint for_each {A S} (body : S -> A -> result S) (xs : list A) (acc : S)
  : result S :=
  match xs with
  | [] => Ok acc
  | x :: xs' => bind (body acc x) (for_each body xs')
  end.

(** [[f(x) for x in xs]] *)
Fixpoint map_m {A B} (f : A -> result B) (xs : list A) : result (list B) :=
  match xs with
  | [] => Ok []
  | x :: xs' =>
      bind (f x) (fun y => bind (map_m f xs') (fun ys => Ok (y :: ys)))
  end.

(** [s.split(sep)] for a one-character separator: every occurrence of
    [sep] cuts, so the result has one more field than [s] has
    separators. *)
Fixpoint split (sep : ascii) (s : string) : list string :=
  match s with
  | EmptyString => [EmptyString]
  | String c s' =>
      if Ascii.eqb c sep then EmptyString :: split sep s'
      else match split sep s' with
           | w :: ws => String c w :: ws
           | [] => []
           end
  end.

(** [l[i]] *)
Definition index {A} (l : list A) (i : nat) : result A :=
  match nth_error l i with
  | Some x => Ok x
  | None => Raise IndexError
  end.

Definition len {A} (l : list A) : nat := List.length l.

(** [c in s] for a character [c] *)
Fixpoint occurs (c : ascii) (s : string) : bool :=
  match s with
  | EmptyString => false
  | String a s' => Ascii.eqb a c || occurs c s'
  end.

(** [a < b] on [str] is [String.ltb]: lexicographic on code points, a
    proper prefix first.  [a < b] on 3-tuples of [str] looks for the first
    component where the tuples differ and compares there. *)
Definition tuple_lt (a b : string * string * string) : bool :=
  let '(a1, a2, a3) := a in
  let '(b1, b2, b3) := b in
  if negb (a1 =? b1) then a1 <? b1
  else if negb (a2 =? b2) then a2 <? b2
  else a3 <? b3.

(** [sorted(xs, key=f)]: the keys are computed once per element, then the
    decorated list is sorted by a stable sort that compares keys with [<]
    only.  Stable sorts agree extensionally; insertion sort stands for
    the runtime's. *)
Section Sorted.
Context {A K : Type} (lt : K -> K -> bool).

Fixpoint insert (kx : K * A) (l : list (K * A)) : list (K * A) :=
  match l with
  | [] => [kx]
  | ky :: l' =>
      if lt (fst ky) (fst kx) then ky :: insert kx l' else kx :: ky :: l'
  end.

Fixpoint sort_decorated (l : list (K * A)) : list (K * A) :=
  match l with
  | [] => []
  | kx :: l' => insert kx (sort_decorated l')
  end.

Definition decorate (key : A -> result K) (x : A) : result (K * A) :=
  bind (key x) (fun k => Ok (k, x)).

Definition sorted (key : A -> result K) (xs : list A) : result (list A) :=
  bind (map_m (decorate key) xs)
       (fun ks => Ok (map snd (sort_decorated ks))).
End Sorted.

(** [dict] with [str] keys: entries in insertion order, one per key. *)
Section Dict.
Context {V : Type}.

Definition dict : Type := list (string * V).

(** [k in d] *)
Fixpoint contains (k : string) (d : dict) : bool :=
  match d with
  | [] => false
  | (k', _) :: d' => (k' =? k) || contains k d'
  end.

(** [d[k]] *)
Fixpoint getitem (d : dict) (k : string) : result V :=
  match d with
  | [] => Raise (KeyError k)
  | (k', v) :: d' => if k' =? k then Ok v else getitem d' k
  end.

(** [d[k] = v]: an existing key keeps its position, a new one goes
    last. *)
Fixpoint setitem (k : string) (v : V) (d : dict) : dict :=
  match d with
  | [] => [(k, v)]
  | (k', v') :: d' =>
      if k' =? k then (k', v) :: d' else (k', v') :: setitem k v d'
  end.

(** [d.keys()] *)
Definition keys (d : dict) : list string := map fst d.
End Dict.
Arguments dict V : clear implicits.

End Py.

Import Py.

Declare Scope py_scope.
Delimit Scope py_scope with py.
Notation "x <- e ;; k" := (bind e (fun x => k))
  (at level 61, e at next level, right associativity) : py_scope.
Local Open Scope py_scope.

Definition us : ascii := "_"%char.
Definition dot : ascii := "."%char.

(** ** The script *)

(** A hierarchy entry, [{"aliases": [...], "parents": [...]}]. *)
Record node : Type := mk_node { aliases : list string; parents : list string }.

Definition hierarchy : Type := dict node.

(** Body of the loop of [load_lineage_files] (lines 36-55) on one clade. *)
Definition process_clade (silo_lineages : hierarchy) (clade : string)
  : result hierarchy :=
  genotype <- index (split us clade) 0 ;;
  let silo_lineages :=
    if negb (contains genotype silo_lineages)
    then setitem genotype (mk_node [] []) silo_lineages
    else silo_lineages in
  if (1 <? len (split us clade))%nat then
    major_lineage <- index (split dot clade) 0 ;;
    let silo_lineages :=
      if negb (contains major_lineage silo_lineages)
      then setitem major_lineage (mk_node [] [genotype]) silo_lineages
      else silo_lineages in
    if (1 <? len (split dot clade))%nat then
      let minor_lineage := clade in
      Ok (if negb (contains minor_lineage silo_lineages)
          then setitem minor_lineage (mk_node [] [major_lineage]) silo_lineages
          else silo_lineages)
    else Ok silo_lineages
  else Ok silo_lineages.

(** The hierarchy before the loop (lines 32-34). *)
Definition sentinels : hierarchy :=
  setitem "None" (mk_node [] [])
    (setitem "unassigned" (mk_node [] []) []).

(** [load_lineage_files] (lines 32-56), from the point where the clade
    column has been read: download and table parsing are collaborators, so
    the function takes [unique_clades] itself. *)
Definition load_lineage_files (unique_clades : list string)
  : result hierarchy :=
  for_each process_clade unique_clades sentinels.

(** [parse_label] (lines 59-68). *)
Definition parse_label (clade : string) : result (string * string * string) :=
  genotype <- index (split us clade) 0 ;;
  if (1 <? len (split us clade))%nat then
    major_lineage <- index (split dot clade) 0 ;;
    if (1 <? len (split dot clade))%nat then
      Ok (genotype, major_lineage, clade)
    else
      Ok (genotype, major_lineage, EmptyString)
  else
    Ok (genotype, EmptyString, EmptyString).

(** What the writer sends to the file, one constructor per [f.write] of
    lines 93-100 (the text of a list is left to the runtime's [repr]). *)
Inductive chunk : Type :=
| Header (name : string)
| Aliases (a : list string)
| ParentsOpen
| ParentItem (parent : string)
| ParentsEmpty.

Definition write_node (lineages : hierarchy) (name : string)
  : result (list chunk) :=
  entry <- getitem lineages name ;;
  Ok (Header name :: Aliases (aliases entry) ::
      match parents entry with
      | [] => [ParentsEmpty]
      | ps => ParentsOpen :: map ParentItem ps
      end).

(** The loop of [generate_hierarchy_file] (lines 92-100) over a loaded
    hierarchy. *)
Definition generate_hierarchy_file (lineages : hierarchy)
  : result (list chunk) :=
  names <- sorted tuple_lt parse_label (keys lineages) ;;
  blocks <- map_m (write_node lineages) names ;;
  Ok (concat blocks).

(** ** Vocabulary of the specification *)

(** The part of [s] before the first [c]; all of [s] when [c] is absent. *)
Fixpoint before (c : ascii) (s : string) : string :=
  match s with
  | EmptyString => EmptyString
  | String a s' =>
      if Ascii.eqb a c then EmptyString else String a (before c s')
  end.

(** [g] is the substring of [s] before the first [c], stated without
    reference to any function. *)
Definition before_first (c : ascii) (s g : string) : Prop :=
  (occurs c s = false /\ g = s) \/
  (exists rest, s = (g ++ String c rest)%string /\ occurs c g = false).

(** The tuple [parse_label] returns, in closed form. *)
Definition key_of (s : string) : string * string * string :=
  (before us s,
   if occurs us s then before dot s else EmptyString,
   if occurs us s && occurs dot s then s else EmptyString).

(** The two readings of when the minor lineage is empty: the
    specification's ("major is empty or the label has no dot") and the
    nesting of the two tests in the code. *)
Definition minor_empty_as_specified (s major : string) : Prop :=
  major = EmptyString \/ occurs dot s = false.

Definition minor_empty_as_coded (s major : string) : Prop :=
  occurs us s = false \/ occurs dot s = false.

Definition parses_as (minor_empty : string -> string -> Prop) (s : string)
  : Prop :=
  exists g m n,
    parse_label s = Ok (g, m, n) /\
    before_first us s g /\
    (occurs us s = false -> m = EmptyString) /\
    (occurs us s = true -> before_first dot s m) /\
    (minor_empty s m -> n = EmptyString) /\
    (~ minor_empty s m -> n = s) /\
    (n <> EmptyString -> n = s) /\
    (m <> EmptyString -> prefix m s = true) /\
    prefix g s = true.

(** A label of the three-level scheme: when it has an underscore, no dot
    comes before the first one. *)
Definition well_formed (c : string) : bool :=
  negb (occurs us c) || negb (occurs dot (before us c)).

Definition sentinel (k : string) : Prop := k = "unassigned" \/ k = "None".

(** [k] is a node of [h] with no alias and the parents [ps]. *)
Definition entry (h : hierarchy) (k : string) (ps : list string) : Prop :=
  getitem h k = Ok (mk_node [] ps).

(** [p] is listed as a parent of node [x]. *)
Definition edge (h : hierarchy) (x p : string) : Prop :=
  exists nd, getitem h x = Ok nd /\ In p (parents nd).

(** The parents of the three levels, for the labels of the input [cs] as
    [parse_label] splits them. *)
Definition genotype_level (h : hierarchy) (cs : list string) : Prop :=
  forall c g m n, In c cs -> parse_label c = Ok (g, m, n) -> entry h g [].

Definition major_level (h : hierarchy) (cs : list string) : Prop :=
  forall c g m n, In c cs -> parse_label c = Ok (g, m, n) ->
                  m <> EmptyString -> entry h m [g].

Definition minor_level (h : hierarchy) (cs : list string) : Prop :=
  forall c g m n, In c cs -> parse_label c = Ok (g, m, n) ->
                  n <> EmptyString -> entry h n [m].

Definition depth_le_2 (h : hierarchy) : Prop :=
  forall x0 x1 x2 x3, edge h x0 x1 -> edge h x1 x2 -> edge h x2 x3 -> False.

Definition sentinels_parentless (h : hierarchy) : Prop :=
  forall k, sentinel k -> entry h k [].

Definition sentinels_childless (h : hierarchy) : Prop :=
  forall x k, sentinel k -> ~ edge h x k.

(** The forest the specification describes for the input [cs]. *)
Definition three_level_forest (cs : list string) : Prop :=
  exists h,
    load_lineage_files cs = Ok h /\
    genotype_level h cs /\ major_level h cs /\ minor_level h cs /\
    depth_le_2 h /\
    sentinels_parentless h /\ sentinels_childless h.

(** The same node names; for every name, the same entry. *)
Definition same_names (h1 h2 : hierarchy) : Prop :=
  forall k, contains k h1 = contains k h2.

Definition same_entries (h1 h2 : hierarchy) : Prop :=
  forall k, getitem h1 k = getitem h2 k.

Definition order_independent (cs1 cs2 : list string) : Prop :=
  exists h1 h2,
    load_lineage_files cs1 = Ok h1 /\ load_lineage_files cs2 = Ok h2 /\
    same_names h1 h2 /\ same_entries h1 h2.

(** The node names of the file, in the order written. *)
Definition names_written (out : list chunk) : list string :=
  flat_map (fun c => match c with Header n => [n] | _ => [] end) out.

(** [p] is written somewhere before [x]. *)
Definition emitted_before (p x : string) (l : list string) : Prop :=
  exists l1 l2 l3, l = l1 ++ p :: l2 ++ x :: l3.

(** Node [x] is written after every parent it lists. *)
Definition after_its_parents (h : hierarchy) (out : list chunk) (x : string)
  : Prop :=
  forall nd p,
    getitem h x = Ok nd -> In p (parents nd) ->
    emitted_before p x (names_written out).

Definition parents_first (cs : list string) : Prop :=
  exists h out,
    load_lineage_files cs = Ok h /\
    generate_hierarchy_file h = Ok out /\
    forall x, after_its_parents h out x.

(** ** Closed forms used in the proofs *)

Definition add_if_absent (k : string) (v : node) (d : hierarchy)
  : hierarchy :=
  if contains k d then d else setitem k v d.

Definition step (d : hierarchy) (c : string) : hierarchy :=
  let d1 := add_if_absent (before us c) (mk_node [] []) d in
  if occurs us c then
    let d2 := add_if_absent (before dot c) (mk_node [] [before us c]) d1 in
    if occurs dot c then add_if_absent c (mk_node [] [before dot c]) d2
    else d2
  else d1.

(** Where an entry of the hierarchy built from the clades [seen] can come
    from. *)
Inductive origin (seen : list string) : string -> node -> Prop :=
| from_sentinel k : sentinel k -> origin seen k (mk_node [] [])
| from_genotype c : In c seen -> origin seen (before us c) (mk_node [] [])
| from_major c :
    In c seen -> occurs us c = true ->
    origin seen (before dot c) (mk_node [] [before us c])
| from_minor c :
    In c seen -> occurs us c = true -> occurs dot c = true ->
    origin seen c (mk_node [] [before dot c]).

(** Every entry of [d] has an origin among [seen], and every name with an
    origin is a key of [d]. *)
Definition explained (seen : list string) (d : hierarchy) : Prop :=
  (forall k nd, getitem d k = Ok nd -> origin seen k nd) /\
  (forall k nd, origin seen k nd -> contains k d = true).

(** The parents a name has in a hierarchy built from well-formed labels. *)
Definition canon_parents (k : string) : list string :=
  if occurs us k then
    if occurs dot k then [before dot k] else [before us k]
  else [].

(** The block the writer emits for one node. *)
Definition block (name : string) (e : node) : list chunk :=
  Header name :: Aliases (aliases e) ::
  match parents e with
  | [] => [ParentsEmpty]
  | ps => ParentsOpen :: map ParentItem ps
  end.

(** The names in the order [sorted(..., key=parse_label)] returns them. *)
Definition sorted_names (xs : list string) : list string :=
  map snd (sort_decorated tuple_lt (map (fun x => (key_of x, x)) xs)).

(** [not (b < a)] on sort keys. *)
Definition key_le (a b : string * string * string) : Prop :=
  tuple_lt b a = false.

(** [not (b < a)] for an arbitrary [<] on keys, on decorated elements. *)
Definition le_of {A K : Type} (lt : K -> K -> bool) (a b : K * A) : Prop :=
  lt (fst b) (fst a) = false.

(** Case analysis on every string equality test in sight. *)
Ltac split_eqb :=
  repeat match goal with
    | |- context [String.eqb ?a ?b] =>
        destruct (String.eqb_spec a b); subst; simpl
    | H : context [String.eqb ?a ?b] |- _ =>
        destruct (String.eqb_spec a b); subst; simpl in H
    end.

(** ** The rest of the script *)

(** The clade column as the table reader hands it over (line 27): a value
    per row, [None] where the cell is missing. *)
Module Pd.

(** [Series.dropna()] *)
Definition dropna (col : list (option string)) : list string :=
  flat_map (fun v => match v with Some s => [s] | None => [] end) col.

(** [Series.unique()]: the distinct values, in order of first appearance. *)
Fixpoint unique_from (seen xs : list string) : list string :=
  match xs with
  | [] => []
  | x :: xs' =>
      if existsb (String.eqb x) seen then unique_from seen xs'
      else x :: unique_from (x :: seen) xs'
  end.

Definition unique (xs : list string) : list string := unique_from [] xs.

End Pd.

(** [load_lineage_files] from line 28 on: the column is cleaned, then the
    loop runs. *)
Definition load_lineage_column (clade : list (option string))
  : result hierarchy :=
  let unique_clades := Pd.unique (Pd.dropna clade) in
  load_lineage_files unique_clades.

(** [os.path.join] of two components, as POSIX systems have it. *)
Module PosixPath.

Definition sep : ascii := "/"%char.

(** [s.startswith(c)] and [s.endswith(c)] for a character [c] *)
Definition startswith (c : ascii) (s : string) : bool :=
  match s with
  | EmptyString => false
  | String a _ => Ascii.eqb a c
  end.

Fixpoint endswith (c : ascii) (s : string) : bool :=
  match s with
  | EmptyString => false
  | String a EmptyString => Ascii.eqb a c
  | String _ s' => endswith c s'
  end.

Definition join (a b : string) : string :=
  if startswith sep b then b
  else if (a =? EmptyString) || endswith sep a then (a ++ b)%string
  else (a ++ String sep b)%string.

End PosixPath.

(** Where [load_lineage_files] saves the downloaded table (line 25). *)
Definition save_path (output_dir : string) : string :=
  PosixPath.join output_dir "clades.tsv".

(** Where [generate_hierarchy_file] writes (lines 80-87).  [dataset_tag]
    is [None] or a string, and counts as given when it is a non-empty
    string; [str_of_path] is the text of [Path(output_dir)]. *)
Definition output_file (str_of_path : string -> string)
  (output_dir : string) (dataset_tag : option string) : string :=
  let subtype_dir :=
    match dataset_tag with
    | Some tag =>
        if negb (tag =? EmptyString) then PosixPath.join output_dir tag
        else str_of_path output_dir
    | None => str_of_path output_dir
    end in
  PosixPath.join subtype_dir "lineages.yaml".

(** [main] (lines 117-124): the arguments of the four calls of
    [generate_hierarchy_file], and the files they read into and write. *)
Definition url : string :=
  "https://raw.githubusercontent.com/V-GEN-Lab/nextclade-datasets-workflow/main/denv/resources/".

Definition subtypes : list string := ["denv1"; "denv2"; "denv3"; "denv4"].

Definition main_calls (dataset_tag : option string)
  : list (string * string * option string) :=
  map (fun subtype =>
         ((url ++ subtype ++ "/clades.tsv")%string, subtype, dataset_tag))
      subtypes.

Definition main_output_files (str_of_path : string -> string)
  (dataset_tag : option string) : list string :=
  map (fun call => output_file str_of_path (snd (fst call)) (snd call))
      (main_calls dataset_tag).

(** The text of the file: what each [f.write] of lines 93-100 sends.  The
    text of a list is ["[" + ", ".join(repr(x) for x in l) + "]"]; the
    [repr] of a string is the runtime's and stays a parameter. *)
Definition newline : string := String (ascii_of_nat 10) EmptyString.

Section Text.
Variable repr_str : string -> string.

Definition repr_list (l : list string) : string :=
  ("[" ++ String.concat ", " (map repr_str l) ++ "]")%string.

Definition written (c : chunk) : string :=
  match c with
  | Header name => (name ++ ":" ++ newline)%string
  | Aliases a => ("  aliases: " ++ repr_list a ++ newline)%string
  | ParentsOpen => ("  parents:" ++ newline)%string
  | ParentItem parent => ("  - " ++ parent ++ newline)%string
  | ParentsEmpty => ("  parents: []" ++ newline)%string
  end.

Definition file_text (out : list chunk) : string :=
  String.concat EmptyString (map written out).
End Text.

(** ** Vocabulary of the further properties *)

(** [c] has been through the loop: every key it can insert is there. *)
Definition processed (c : string) (d : hierarchy) : bool :=
  contains (before us c) d
  && (negb (occurs us c)
      || (contains (before dot c) d
          && (negb (occurs dot c) || contains c d))).

(** The sort key of [a] is not above, or is strictly below, that of [b]. *)
Definition key_not_after (a b : string) : Prop :=
  exists ka kb,
    parse_label a = Ok ka /\ parse_label b = Ok kb /\ tuple_lt kb ka = false.

Definition key_before (a b : string) : Prop :=
  exists ka kb,
    parse_label a = Ok ka /\ parse_label b = Ok kb /\ tuple_lt ka kb = true.

(** [a] and [b] parse to the same genotype. *)
Definition same_genotype (a b : string) : Prop :=
  exists g ma na mb nb,
    parse_label a = Ok (g, ma, na) /\ parse_label b = Ok (g, mb, nb).

(** The text of the block of a node without alias, with no parent or with
    one. *)
Definition block_text (name : string) (parent : option string) : string :=
  match parent with
  | None =>
      (name ++ ":" ++ newline ++ "  aliases: []" ++ newline
         ++ "  parents: []" ++ newline)%string
  | Some p =>
      (name ++ ":" ++ newline ++ "  aliases: []" ++ newline
         ++ "  parents:" ++ newline ++ "  - " ++ p ++ newline)%string
  end.

Definition parents_of (parent : option string) : list string :=
  match parent with
  | None => []
  | Some p => [p]
  end.

(** [k] is the major lineage (the part before the first dot) of an input
    label that has a dot before its first underscore. *)
Definition clashing (cs : list string) (k : string) : Prop :=
  exists c, In c cs /\ well_formed c = false /\ before dot c = k.

Definition depth_le_3 (h : hierarchy) : Prop :=
  forall x0 x1 x2 x3 x4,
    edge h x0 x1 -> edge h x1 x2 -> edge h x2 x3 -> edge h x3 x4 -> False.

(* ================================================================== *)
(** * Proofs *)

(** ** Strings *)

Lemma split_not_nil c s : split c s <> [].
Proof.
  induction s as [|a s IH]; simpl; [discriminate|].
  destruct (Ascii.eqb a c); [discriminate|].
  destruct (split c s); [congruence | discriminate].
Qed.

Lemma split_index0 c s : index (split c s) 0 = Ok (before c s).
Proof.
  unfold index.
  induction s as [|a s IH]; simpl; [reflexivity|].
  destruct (Ascii.eqb a c); [reflexivity|].
  destruct (split c s) as [|w ws] eqn:E; [now apply split_not_nil in E|].
  simpl in *. congruence.
Qed.

Lemma split_len c s : (1 <? len (split c s))%nat = occurs c s.
Proof.
  unfold len.
  induction s as [|a s IH]; simpl; [reflexivity|].
  destruct (Ascii.eqb a c); simpl.
  - generalize (split_not_nil c s).
    destruct (split c s); [congruence|reflexivity].
  - rewrite <- IH. generalize (split_not_nil c s).
    destruct (split c s); [congruence|reflexivity].
Qed.

Lemma parse_label_eq s : parse_label s = Ok (key_of s).
Proof.
  unfold parse_label, key_of.
  rewrite !split_index0, !split_len. simpl.
  destruct (occurs us s); simpl; [|reflexivity].
  destruct (occurs dot s); reflexivity.
Qed.

Lemma occurs_before_self c s : occurs c (before c s) = false.
Proof.
  induction s as [|a s IH]; simpl; [reflexivity|].
  destruct (Ascii.eqb a c) eqn:E; simpl; [reflexivity|].
  now rewrite E.
Qed.

Lemma before_absent c s : occurs c s = false -> before c s = s.
Proof.
  induction s as [|a s IH]; simpl; [reflexivity|].
  destruct (Ascii.eqb a c); simpl; [discriminate|].
  intros H. now rewrite IH.
Qed.

Lemma before_prefix c s : prefix (before c s) s = true.
Proof.
  induction s as [|a s IH]; simpl; [reflexivity|].
  destruct (Ascii.eqb a c); simpl; [reflexivity|].
  destruct (ascii_dec a a); [exact IH | congruence].
Qed.

Lemma before_spec c s : before_first c s (before c s).
Proof.
  unfold before_first.
  induction s as [|a s IH]; simpl.
  - left. now split.
  - destruct (Ascii.eqb a c) eqn:E; simpl.
    + right. apply Ascii.eqb_eq in E. subst a. exists s. now split.
    + destruct IH as [[H1 H2] | [rest [H1 H2]]].
      * left. split; [exact H1 | now rewrite H2].
      * right. exists rest. rewrite E. simpl.
        split; [now rewrite <- H1 | exact H2].
Qed.

Lemma before_append c g rest :
  occurs c g = false -> before c (g ++ String c rest)%string = g.
Proof.
  induction g as [|a g IH]; simpl.
  - now rewrite Ascii.eqb_refl.
  - destruct (Ascii.eqb a c); simpl; [discriminate|].
    intros H. now rewrite IH.
Qed.

Lemma before_first_unique c s g : before_first c s g -> g = before c s.
Proof.
  intros [[H1 H2] | [rest [H1 H2]]].
  - subst g. symmetry. now apply before_absent.
  - subst s. symmetry. now apply before_append.
Qed.

(** In a well-formed label with an underscore, the major lineage contains
    that underscore, has no dot, and has the label's genotype. *)
Lemma major_of_well_formed c :
  occurs us c = true -> occurs dot (before us c) = false ->
  occurs us (before dot c) = true /\ before us (before dot c) = before us c.
Proof.
  induction c as [|a c IH]; simpl; [discriminate|].
  destruct (Ascii.eqb a us) eqn:Eu.
  - intros _ _. apply Ascii.eqb_eq in Eu. subst a. simpl. now split.
  - simpl. destruct (Ascii.eqb a dot) eqn:Ed; simpl; [discriminate|].
    intros H1 H2. rewrite Eu. simpl.
    destruct (IH H1 H2) as [IH1 IH2]. split; [exact IH1 | now rewrite IH2].
Qed.

Lemma major_with_us c :
  occurs us (before dot c) = true ->
  before us (before dot c) = before us c.
Proof.
  induction c as [|a c IH]; simpl; [discriminate|].
  destruct (Ascii.eqb a dot) eqn:Ed; simpl; [discriminate|].
  destruct (Ascii.eqb a us) eqn:Eu; simpl; [reflexivity|].
  intros H. now rewrite IH.
Qed.

Lemma well_formed_major c :
  well_formed c = true -> occurs us c = true ->
  occurs us (before dot c) = true.
Proof.
  unfold well_formed. intros W U. rewrite U in W. simpl in W.
  apply negb_true_iff in W. now apply major_of_well_formed.
Qed.

Lemma before_idem c s : before c (before c s) = before c s.
Proof. apply before_absent, occurs_before_self. Qed.

Lemma occurs_nonempty c s : occurs c s = true -> s <> EmptyString.
Proof. destruct s; [discriminate | discriminate]. Qed.

(** ** The order on strings and on sort keys *)

Lemma ltb_lt a b : (a <? b) = true <-> String_as_OT.lt a b.
Proof.
  unfold String.ltb. rewrite <- String_as_OT.cmp_lt. unfold String_as_OT.cmp.
  destruct (a ?= b)%string; split; congruence.
Qed.

Lemma ltb_irrefl a : (a <? a) = false.
Proof.
  unfold String.ltb.
  assert (H : (a ?= a)%string = Eq) by now apply String_as_OT.cmp_eq.
  now rewrite H.
Qed.

Lemma ltb_trans a b c : (a <? b) = true -> (b <? c) = true -> (a <? c) = true.
Proof. rewrite !ltb_lt. apply String_as_OT.lt_trans. Qed.

Lemma ltb_total a b : a <> b -> (a <? b) = true \/ (b <? a) = true.
Proof.
  intros N. unfold String.ltb. rewrite (String.compare_antisym b a).
  destruct (a ?= b)%string eqn:E; simpl; auto.
  apply String.compare_eq_iff in E. contradiction.
Qed.

Lemma ltb_asym a b : (a <? b) = true -> (b <? a) = false.
Proof.
  intros H. destruct (b <? a) eqn:E; [|reflexivity].
  pose proof (ltb_trans _ _ _ H E) as T. now rewrite ltb_irrefl in T.
Qed.


Lemma tuple_lt_irrefl a : tuple_lt a a = false.
Proof.
  destruct a as [[a1 a2] a3]. unfold tuple_lt.
  rewrite !String.eqb_refl. simpl. apply ltb_irrefl.
Qed.

Lemma tuple_lt_trans a b c :
  tuple_lt a b = true -> tuple_lt b c = true -> tuple_lt a c = true.
Proof.
  destruct a as [[a1 a2] a3], b as [[b1 b2] b3], c as [[c1 c2] c3].
  unfold tuple_lt. intros H1 H2.
  split_eqb; eauto using ltb_trans;
    try (rewrite ltb_irrefl in *; discriminate);
    try (match goal with
         | H : (?x <? ?y) = true, H' : (?y <? ?x) = true |- _ =>
             apply ltb_asym in H; congruence
         end).
Qed.

Lemma tuple_lt_total a b : a <> b -> tuple_lt a b = true \/ tuple_lt b a = true.
Proof.
  destruct a as [[a1 a2] a3], b as [[b1 b2] b3]. unfold tuple_lt. intros N.
  split_eqb; try congruence; apply ltb_total; congruence.
Qed.

Lemma tuple_lt_asym a b : tuple_lt a b = true -> tuple_lt b a = false.
Proof.
  intros H. destruct (tuple_lt b a) eqn:E; [|reflexivity].
  pose proof (tuple_lt_trans _ _ _ H E) as T. now rewrite tuple_lt_irrefl in T.
Qed.

Lemma key_le_antisym a b : key_le a b -> key_le b a -> a = b.
Proof.
  unfold key_le. intros H1 H2.
  destruct a as [[a1 a2] a3], b as [[b1 b2] b3].
  destruct (String.eqb_spec a1 b1); [subst|].
  - destruct (String.eqb_spec a2 b2); [subst|].
    + destruct (String.eqb_spec a3 b3); [now subst|].
      destruct (tuple_lt_total (b1, b2, a3) (b1, b2, b3)); congruence.
    + destruct (tuple_lt_total (b1, a2, a3) (b1, b2, b3)); congruence.
  - destruct (tuple_lt_total (a1, a2, a3) (b1, b2, b3)); congruence.
Qed.

Lemma key_le_trans a b c : key_le a b -> key_le b c -> key_le a c.
Proof.
  unfold key_le. intros H1 H2.
  destruct (tuple_lt c a) eqn:E; [|reflexivity].
  destruct (tuple_lt_total b c) as [T | T].
  - intros ->. congruence.
  - pose proof (tuple_lt_trans _ _ _ T E). congruence.
  - congruence.
Qed.

Lemma key_of_inj s1 s2 : key_of s1 = key_of s2 -> s1 = s2.
Proof.
  unfold key_of. intros H.
  destruct (occurs us s1) eqn:U1, (occurs us s2) eqn:U2;
    destruct (occurs dot s1) eqn:D1, (occurs dot s2) eqn:D2;
    simpl in H; injection H; intros;
    repeat match goal with
      | E : occurs _ ?s = false |- _ =>
          rewrite (before_absent _ s E) in *; clear E
      end;
    try congruence;
    exfalso;
    match goal with
    | U : occurs _ ?s = true, E : ?s = EmptyString |- _ =>
        rewrite E in U; discriminate
    | U : occurs _ ?s = true, E : EmptyString = ?s |- _ =>
        rewrite <- E in U; discriminate
    end.
Qed.

Lemma parse_label_inj s1 s2 : parse_label s1 = parse_label s2 -> s1 = s2.
Proof.
  rewrite !parse_label_eq. intros H. apply key_of_inj. congruence.
Qed.

(** ** Sorting *)

Section SortFacts.
Context {A K : Type} (lt : K -> K -> bool).
Hypothesis lt_asym : forall a b, lt a b = true -> lt b a = false.
Hypothesis le_trans :
  forall a b c, lt b a = false -> lt c b = false -> lt c a = false.

Lemma insert_perm (kx : K * A) l : Permutation (insert lt kx l) (kx :: l).
Proof.
  induction l as [|ky l IH]; simpl; [reflexivity|].
  destruct (lt (fst ky) (fst kx)); [|reflexivity].
  rewrite IH. apply perm_swap.
Qed.

Lemma sort_perm (l : list (K * A)) : Permutation (sort_decorated lt l) l.
Proof.
  induction l as [|kx l IH]; simpl; [reflexivity|].
  rewrite insert_perm. now constructor.
Qed.

Lemma insert_sorted (kx : K * A) l :
  StronglySorted (le_of lt) l -> StronglySorted (le_of lt) (insert lt kx l).
Proof.
  induction 1 as [|ky l SS IH F]; simpl.
  - repeat constructor.
  - destruct (lt (fst ky) (fst kx)) eqn:E.
    + constructor; [exact IH|].
      eapply Permutation_Forall; [symmetry; apply insert_perm|].
      constructor; [|exact F]. unfold le_of. now apply lt_asym.
    + constructor; [now constructor|].
      constructor; [exact E|].
      rewrite Forall_forall in *. intros z Hz.
      unfold le_of in *. eapply le_trans; [exact E | now apply F].
Qed.

Lemma sort_sorted (l : list (K * A)) :
  StronglySorted (le_of lt) (sort_decorated lt l).
Proof.
  induction l as [|kx l IH]; simpl; [constructor | now apply insert_sorted].
Qed.
End SortFacts.

Section SortedLists.
Context {T : Type} (R : T -> T -> Prop).

Lemma sorted_after_middle la a lb :
  StronglySorted R (la ++ a :: lb) -> Forall (R a) lb.
Proof.
  induction la as [|x la IH]; simpl; intros H; inversion H; subst; auto.
Qed.

(** A list has at most one sorted arrangement when the order is
    antisymmetric on its elements. *)
Lemma sorted_perm_unique l1 :
  forall l2,
    StronglySorted R l1 -> StronglySorted R l2 -> Permutation l1 l2 ->
    (forall a b, In a l1 -> In b l1 -> R a b -> R b a -> a = b) ->
    l1 = l2.
Proof.
  induction l1 as [|a l1 IH]; intros l2 S1 S2 P anti.
  - apply Permutation_nil in P. now subst.
  - destruct l2 as [|b l2]; [now apply Permutation_sym, Permutation_nil in P|].
    inversion S1 as [|? ? S1' F1]; subst.
    inversion S2 as [|? ? S2' F2]; subst.
    assert (a = b) as ->.
    { assert (Ia : In a (b :: l2))
        by (eapply Permutation_in; [exact P | now left]).
      assert (Ib : In b (a :: l1))
        by (eapply Permutation_in; [symmetry; exact P | now left]).
      destruct Ia as [-> | Ia]; [reflexivity|].
      destruct Ib as [-> | Ib]; [reflexivity|].
      rewrite Forall_forall in F1, F2.
      apply anti; [now left | now right | now apply F1 | now apply F2]. }
    f_equal. apply IH; auto.
    + now apply Permutation_cons_inv in P.
    + intros x y Hx Hy. apply anti; now right.
Qed.
End SortedLists.

Lemma map_m_ok {A B} (f : A -> result B) (g : A -> B) xs :
  (forall x, f x = Ok (g x)) -> map_m f xs = Ok (map g xs).
Proof.
  intros H. induction xs as [|x xs IH]; simpl; [reflexivity|].
  now rewrite H, IH.
Qed.

Lemma sorted_eq xs : sorted tuple_lt parse_label xs = Ok (sorted_names xs).
Proof.
  unfold sorted, sorted_names.
  rewrite (map_m_ok _ (fun x => (key_of x, x))); [reflexivity|].
  intros x. unfold decorate. now rewrite parse_label_eq.
Qed.

Lemma decorated_sorted xs :
  StronglySorted (le_of tuple_lt)
    (sort_decorated tuple_lt (map (fun x => (key_of x, x)) xs)).
Proof.
  apply (sort_sorted tuple_lt).
  - apply tuple_lt_asym.
  - intros a b c. apply key_le_trans.
Qed.

Lemma sorted_names_perm xs : Permutation (sorted_names xs) xs.
Proof.
  unfold sorted_names.
  rewrite sort_perm, map_map. simpl. now rewrite map_id.
Qed.

Lemma sorted_names_permutation_invariant xs ys :
  Permutation xs ys -> sorted_names xs = sorted_names ys.
Proof.
  intros P. unfold sorted_names. f_equal.
  apply (sorted_perm_unique (le_of tuple_lt)); try apply decorated_sorted.
  - rewrite !sort_perm. now apply Permutation_map.
  - intros a b Ha Hb Hab Hba.
    apply (Permutation_in _ (sort_perm tuple_lt _)) in Ha, Hb.
    apply in_map_iff in Ha, Hb.
    destruct Ha as [x [<- _]], Hb as [y [<- _]].
    unfold le_of in *. cbn [fst] in *.
    pose proof (key_le_antisym _ _ Hab Hba) as E.
    apply key_of_inj in E. now subst.
Qed.


(** ** Dictionaries *)

Section DictFacts.
Context {V : Type}.
Implicit Types (d : dict V) (k : string) (v : V).

Lemma contains_In k d : contains k d = true <-> In k (keys d).
Proof.
  induction d as [|[k' v'] d IH]; simpl.
  - split; [discriminate | tauto].
  - rewrite orb_true_iff, IH, String.eqb_eq. tauto.
Qed.

Lemma getitem_present k d :
  contains k d = true -> exists v, getitem d k = Ok v.
Proof.
  induction d as [|[k' v'] d IH]; simpl; [discriminate|].
  destruct (k' =? k); simpl; eauto.
Qed.

Lemma getitem_Ok k d v : getitem d k = Ok v -> contains k d = true.
Proof.
  induction d as [|[k' v'] d IH]; simpl; [discriminate|].
  destruct (k' =? k); simpl; auto.
Qed.

Lemma getitem_absent k d :
  contains k d = false -> getitem d k = Raise (KeyError k).
Proof.
  induction d as [|[k' v'] d IH]; simpl; [reflexivity|].
  destruct (k' =? k); simpl; [discriminate | exact IH].
Qed.

Lemma getitem_setitem k v d k' :
  getitem (setitem k v d) k' = if k =? k' then Ok v else getitem d k'.
Proof.
  induction d as [|[k0 v0] d IH]; simpl; [reflexivity|].
  destruct (String.eqb_spec k0 k) as [-> | N]; simpl.
  - now destruct (k =? k').
  - rewrite IH.
    destruct (String.eqb_spec k0 k') as [-> | N']; [|reflexivity].
    destruct (String.eqb_spec k k'); congruence.
Qed.

Lemma contains_setitem k v d k' :
  contains k' (setitem k v d) = (k =? k') || contains k' d.
Proof.
  induction d as [|[k0 v0] d IH]; simpl; [reflexivity|].
  destruct (String.eqb_spec k0 k) as [-> | N]; simpl.
  - now destruct (k =? k').
  - rewrite IH. now destruct (k0 =? k'), (k =? k').
Qed.

Lemma keys_setitem k v d :
  keys (setitem k v d) = if contains k d then keys d else keys d ++ [k].
Proof.
  unfold keys. induction d as [|[k0 v0] d IH]; simpl; [reflexivity|].
  destruct (k0 =? k); simpl; [reflexivity|].
  rewrite IH. now destruct (contains k d).
Qed.

Lemma NoDup_setitem k v d : NoDup (keys d) -> NoDup (keys (setitem k v d)).
Proof.
  intros H. rewrite keys_setitem.
  destruct (contains k d) eqn:E; [exact H|].
  apply (Permutation_NoDup (l := k :: keys d)).
  - apply Permutation_cons_append.
  - constructor; [|exact H]. rewrite <- contains_In. congruence.
Qed.
End DictFacts.

(** ** One pass of the loop *)

Lemma contains_add k v d k' :
  contains k' (add_if_absent k v d) = (k =? k') || contains k' d.
Proof.
  unfold add_if_absent. destruct (contains k d) eqn:E.
  - destruct (String.eqb_spec k k') as [<- | N]; simpl; [exact E | reflexivity].
  - apply contains_setitem.
Qed.

Lemma getitem_add_keep k v d k' nd :
  getitem d k' = Ok nd -> getitem (add_if_absent k v d) k' = Ok nd.
Proof.
  intros H. unfold add_if_absent. destruct (contains k d) eqn:E; [exact H|].
  rewrite getitem_setitem.
  destruct (String.eqb_spec k k') as [<- | N]; [|exact H].
  apply getitem_Ok in H. congruence.
Qed.

Lemma getitem_add_inv k v d k' nd :
  getitem (add_if_absent k v d) k' = Ok nd ->
  getitem d k' = Ok nd \/ (k' = k /\ nd = v).
Proof.
  unfold add_if_absent. destruct (contains k d); [now left|].
  rewrite getitem_setitem.
  destruct (String.eqb_spec k k') as [<- | N]; [|now left].
  intros H. right. split; congruence.
Qed.

Lemma NoDup_add k v d : NoDup (keys d) -> NoDup (keys (add_if_absent k v d)).
Proof.
  unfold add_if_absent. destruct (contains k d); [auto | apply NoDup_setitem].
Qed.

Lemma process_clade_eq d c : process_clade d c = Ok (step d c).
Proof.
  unfold process_clade, step, add_if_absent.
  rewrite !split_index0, !split_len. simpl.
  destruct (contains (before us c) d); simpl;
    destruct (occurs us c); try reflexivity;
    match goal with
    | |- context [contains (before dot c) ?d'] =>
        destruct (contains (before dot c) d'); simpl
    end;
    destruct (occurs dot c); try reflexivity;
    match goal with
    | |- context [contains c ?d'] => destruct (contains c d'); reflexivity
    end.
Qed.

Lemma for_each_eq cs : forall d,
  for_each process_clade cs d = Ok (fold_left step cs d).
Proof.
  induction cs as [|c cs IH]; intros d; simpl; [reflexivity|].
  rewrite process_clade_eq. simpl. apply IH.
Qed.

Lemma load_eq cs : load_lineage_files cs = Ok (fold_left step cs sentinels).
Proof. apply for_each_eq. Qed.

Lemma step_keeps d c k nd :
  getitem d k = Ok nd -> getitem (step d c) k = Ok nd.
Proof.
  intros H. unfold step.
  destruct (occurs us c); [destruct (occurs dot c)|];
    repeat apply getitem_add_keep; exact H.
Qed.

Lemma step_NoDup d c : NoDup (keys d) -> NoDup (keys (step d c)).
Proof.
  intros H. unfold step.
  destruct (occurs us c); [destruct (occurs dot c)|];
    repeat apply NoDup_add; exact H.
Qed.

Lemma contains_step d c k :
  contains k (step d c) =
    (occurs us c && occurs dot c && (c =? k))
    || (occurs us c && (before dot c =? k))
    || (before us c =? k)
    || contains k d.
Proof.
  unfold step.
  destruct (occurs us c); [destruct (occurs dot c)|];
    rewrite ?contains_add; simpl;
    repeat match goal with |- context [String.eqb ?a ?b] =>
             destruct (String.eqb a b); simpl end;
    reflexivity.
Qed.

Lemma fold_keeps cs : forall d k nd,
  getitem d k = Ok nd -> getitem (fold_left step cs d) k = Ok nd.
Proof.
  induction cs as [|c cs IH]; intros d k nd H; simpl; [exact H|].
  apply IH. now apply step_keeps.
Qed.

Lemma fold_NoDup cs : forall d,
  NoDup (keys d) -> NoDup (keys (fold_left step cs d)).
Proof.
  induction cs as [|c cs IH]; intros d H; simpl; [exact H|].
  apply IH. now apply step_NoDup.
Qed.

Lemma sentinels_NoDup : NoDup (keys sentinels).
Proof. repeat constructor; simpl; intuition discriminate. Qed.

(** ** Where the entries come from *)

Lemma origin_incl l1 l2 k nd :
  (forall c, In c l1 -> In c l2) -> origin l1 k nd -> origin l2 k nd.
Proof.
  intros I H. destruct H;
    [ now apply from_sentinel
    | apply from_genotype
    | apply from_major
    | apply from_minor ]; auto.
Qed.

Lemma sentinels_eq :
  sentinels = [("unassigned", mk_node [] []); ("None", mk_node [] [])].
Proof. reflexivity. Qed.

Lemma explained_sentinels : explained [] sentinels.
Proof.
  split.
  - intros k nd. rewrite sentinels_eq. cbn [getitem].
    destruct (String.eqb_spec "unassigned" k) as [<- | N1].
    + intros H. injection H as <-. apply from_sentinel. now left.
    + destruct (String.eqb_spec "None" k) as [<- | N2]; [|discriminate].
      intros H. injection H as <-. apply from_sentinel. now right.
  - intros k nd H. destruct H as [k S | c I | c I | c I]; try now destruct I.
    destruct S as [-> | ->]; reflexivity.
Qed.

Lemma explained_step seen d c :
  explained seen d -> explained (c :: seen) (step d c).
Proof.
  intros [E1 E2]. split.
  - intros k nd H.
    assert (old : getitem d k = Ok nd -> origin (c :: seen) k nd).
    { intros G. apply (origin_incl seen); [intros; now right | now apply E1]. }
    assert (Ic : In c (c :: seen)) by now left.
    unfold step in H.
    destruct (occurs us c) eqn:U; [destruct (occurs dot c) eqn:D|];
      repeat match type of H with
        | getitem (add_if_absent _ _ _) _ = _ =>
            apply getitem_add_inv in H; destruct H as [H | [-> ->]]
        end;
      auto using from_genotype, from_major, from_minor.
  - intros k nd H. rewrite contains_step.
    assert (old : forall nd', origin seen k nd' -> contains k d = true)
      by (intros nd'; apply E2).
    destruct H as [k S | c' [<- | I] | c' [<- | I] U | c' [<- | I] U D].
    + rewrite (old _ (from_sentinel seen k S)). now rewrite !orb_true_r.
    + rewrite String.eqb_refl. now rewrite !orb_true_r.
    + rewrite (old _ (from_genotype seen c' I)). now rewrite !orb_true_r.
    + rewrite U, String.eqb_refl. simpl. now rewrite !orb_true_r.
    + rewrite (old _ (from_major seen c' I U)). now rewrite !orb_true_r.
    + rewrite U, D, String.eqb_refl. reflexivity.
    + rewrite (old _ (from_minor seen c' I U D)). now rewrite !orb_true_r.
Qed.

Lemma explained_fold cs : forall seen d,
  explained seen d -> explained (rev cs ++ seen) (fold_left step cs d).
Proof.
  induction cs as [|c cs IH]; intros seen d E; simpl; [exact E|].
  rewrite <- app_assoc. simpl. apply IH. now apply explained_step.
Qed.

Lemma explained_ext l1 l2 d :
  (forall c, In c l1 <-> In c l2) -> explained l1 d -> explained l2 d.
Proof.
  intros I [E1 E2]. split.
  - intros k nd H. apply (origin_incl l1); [apply I | now apply E1].
  - intros k nd H. apply (E2 k nd). apply (origin_incl l2); [apply I | exact H].
Qed.

Lemma built_explained cs : explained cs (fold_left step cs sentinels).
Proof.
  apply (explained_ext (rev cs ++ [])).
  - intros c. rewrite app_nil_r. symmetry. apply in_rev.
  - apply explained_fold, explained_sentinels.
Qed.

Lemma sentinel_no_us k : sentinel k -> occurs us k = false.
Proof. intros [-> | ->]; reflexivity. Qed.

(** With well-formed labels the name of a node determines its entry. *)
Lemma origin_canon seen k nd :
  forallb well_formed seen = true ->
  origin seen k nd -> nd = mk_node [] (canon_parents k).
Proof.
  intros W H. rewrite forallb_forall in W. unfold canon_parents.
  destruct H as [k S | c I | c I U | c I U D].
  - now rewrite (sentinel_no_us k S).
  - now rewrite occurs_before_self.
  - pose proof (W c I) as Wc. unfold well_formed in Wc. rewrite U in Wc.
    simpl in Wc. apply negb_true_iff in Wc.
    destruct (major_of_well_formed c U Wc) as [M1 M2].
    now rewrite M1, occurs_before_self, M2.
  - now rewrite U, D.
Qed.

Lemma built_canon cs h k nd :
  forallb well_formed cs = true ->
  load_lineage_files cs = Ok h ->
  getitem h k = Ok nd -> nd = mk_node [] (canon_parents k).
Proof.
  intros W L G. rewrite load_eq in L. injection L as <-.
  apply (origin_canon cs); [exact W|].
  now apply (built_explained cs).
Qed.

(** The chain argument on names alone. *)
Lemma canon_parent_us x p : In p (canon_parents x) -> occurs us x = true.
Proof.
  unfold canon_parents. destruct (occurs us x); [reflexivity | intros []].
Qed.

Lemma canon_chain x0 x1 x2 x3 :
  In x1 (canon_parents x0) -> In x2 (canon_parents x1) ->
  In x3 (canon_parents x2) -> False.
Proof.
  intros H01 H12 H23.
  pose proof (canon_parent_us _ _ H23) as U2.
  pose proof (canon_parent_us _ _ H12) as U1.
  unfold canon_parents in H01, H12.
  destruct (occurs us x0); [|destruct H01].
  rewrite U1 in H12.
  destruct (occurs dot x1) eqn:D1.
  - destruct (occurs dot x0).
    + destruct H01 as [<- | []]. now rewrite occurs_before_self in D1.
    + destruct H01 as [<- | []]. now rewrite occurs_before_self in U1.
  - destruct H12 as [<- | []]. now rewrite occurs_before_self in U2.
Qed.

(** The key of a parent is below the key of its child. *)
Lemma key_of_genotype g :
  occurs us g = false -> key_of g = (g, EmptyString, EmptyString).
Proof.
  intros U. unfold key_of. rewrite U, (before_absent _ _ U). reflexivity.
Qed.

Lemma key_of_major m :
  occurs us m = true -> occurs dot m = false ->
  key_of m = (before us m, m, EmptyString).
Proof.
  intros U D. unfold key_of. rewrite U, D, (before_absent _ _ D). reflexivity.
Qed.

Lemma key_of_minor x :
  occurs us x = true -> occurs dot x = true ->
  key_of x = (before us x, before dot x, x).
Proof. intros U D. unfold key_of. rewrite U, D. reflexivity. Qed.






(** A name with an underscore and a dot can only be a minor lineage. *)
Lemma origin_minor seen k nd :
  origin seen k nd -> occurs us k = true -> occurs dot k = true ->
  nd = mk_node [] [before dot k].
Proof.
  intros O U D. destruct O as [k S | c I | c I Uc | c I Uc Dc].
  - rewrite (sentinel_no_us k S) in U. discriminate.
  - rewrite occurs_before_self in U. discriminate.
  - rewrite occurs_before_self in D. discriminate.
  - reflexivity.
Qed.

(** ** The writer *)

Lemma names_written_items ps : names_written (map ParentItem ps) = [].
Proof. induction ps as [|p ps IH]; simpl; [reflexivity | exact IH]. Qed.

Lemma names_written_block name e : names_written (block name e) = [name].
Proof.
  unfold block. destruct (parents e) as [|p ps] eqn:E; [reflexivity|].
  change (names_written (Header name :: Aliases (aliases e) :: ParentsOpen
                           :: map ParentItem (p :: ps)))
    with (name :: names_written (map ParentItem (p :: ps))).
  now rewrite names_written_items.
Qed.

Lemma names_written_app a b :
  names_written (a ++ b) = names_written a ++ names_written b.
Proof. apply flat_map_app. Qed.

Lemma write_node_eq h name :
  write_node h name = bind (getitem h name) (fun e => Ok (block name e)).
Proof. reflexivity. Qed.

Lemma write_nodes_ok h names :
  (forall n, In n names -> contains n h = true) ->
  exists blocks,
    map_m (write_node h) names = Ok blocks /\
    names_written (concat blocks) = names.
Proof.
  induction names as [|n names IH]; intros H.
  - exists []. now split.
  - destruct IH as [blocks [M N]]; [intros; apply H; now right|].
    destruct (getitem_present n h) as [e G]; [apply H; now left|].
    exists (block n e :: blocks). split.
    + cbn [map_m]. rewrite write_node_eq, G. cbn [bind]. now rewrite M.
    + cbn [concat]. now rewrite names_written_app, names_written_block, N.
Qed.

Lemma write_nodes_ext h1 h2 names :
  (forall k, getitem h1 k = getitem h2 k) ->
  map_m (write_node h1) names = map_m (write_node h2) names.
Proof.
  intros E. induction names as [|n names IH]; [reflexivity|].
  cbn [map_m]. now rewrite !write_node_eq, E, IH.
Qed.

Lemma generate_ok h :
  exists out,
    generate_hierarchy_file h = Ok out /\
    names_written out = sorted_names (keys h).
Proof.
  unfold generate_hierarchy_file. rewrite sorted_eq. cbn [bind].
  destruct (write_nodes_ok h (sorted_names (keys h))) as [blocks [M N]].
  - intros n I. apply contains_In.
    eapply Permutation_in; [apply sorted_names_perm | exact I].
  - exists (concat blocks). rewrite M. now split.
Qed.

Lemma emitted_before_nil p x : ~ emitted_before p x [].
Proof. intros [l1 [l2 [l3 E]]]. now destruct l1. Qed.

Lemma emitted_before_cons p x y l :
  emitted_before p x (y :: l) ->
  (y = p /\ In x l) \/ emitted_before p x l.
Proof.
  intros [l1 [l2 [l3 E]]]. destruct l1 as [|z l1]; simpl in E.
  - injection E as -> ->. left. split; [reflexivity|].
    apply in_or_app. right. now left.
  - injection E as -> ->. right. now exists l1, l2, l3.
Qed.

(** ** Labels with a dot before the first underscore *)

Lemma dot_first c :
  occurs dot (before us c) = true -> occurs us (before dot c) = false.
Proof.
  induction c as [|a c IH]; simpl; [discriminate|].
  destruct (Ascii.eqb a us) eqn:Eu; simpl; [discriminate|].
  destruct (Ascii.eqb a dot) eqn:Ed; simpl; [reflexivity|].
  intros H. rewrite Eu. simpl. now apply IH.
Qed.

Lemma malformed_marks c :
  well_formed c = false ->
  occurs us c = true /\ occurs dot (before us c) = true
  /\ occurs us (before dot c) = false.
Proof.
  unfold well_formed. intros W.
  apply orb_false_iff in W. destruct W as [U D].
  apply negb_false_iff in U, D. repeat split; auto using dot_first.
Qed.

Lemma malformed_of_major c :
  occurs us c = true -> occurs us (before dot c) = false ->
  well_formed c = false.
Proof.
  intros U M. destruct (well_formed c) eqn:W; [|reflexivity].
  rewrite (well_formed_major c W U) in M. discriminate.
Qed.

Lemma major_neq_genotype c :
  occurs us c = true -> before dot c <> before us c.
Proof.
  induction c as [|a c IH]; simpl; [discriminate|].
  destruct (Ascii.eqb a us) eqn:Eu.
  - apply Ascii.eqb_eq in Eu. subst a. simpl. discriminate.
  - destruct (Ascii.eqb a dot) eqn:Ed; simpl; [discriminate|].
    intros U E. injection E as E. now apply IH.
Qed.

Lemma sentinel_no_dot k : sentinel k -> occurs dot k = false.
Proof. intros [-> | ->]; reflexivity. Qed.

Lemma clashing_marks cs k :
  clashing cs k -> occurs us k = false /\ occurs dot k = false.
Proof.
  intros [c [_ [W <-]]]. destruct (malformed_marks c W) as [_ [_ M]].
  split; [exact M | apply occurs_before_self].
Qed.

Lemma no_clashing_of_well_formed cs k :
  forallb well_formed cs = true -> ~ clashing cs k.
Proof.
  intros W [c [I [M _]]]. rewrite forallb_forall in W.
  rewrite (W c I) in M. discriminate.
Qed.

(** A name that is not clashing has one possible entry. *)
Lemma origin_of_not_clashing cs k nd :
  origin cs k nd -> ~ clashing cs k -> nd = mk_node [] (canon_parents k).
Proof.
  intros O NC. unfold canon_parents.
  destruct O as [k S | c I | c I U | c I U D].
  - now rewrite (sentinel_no_us k S).
  - now rewrite occurs_before_self.
  - destruct (occurs us (before dot c)) eqn:M.
    + now rewrite occurs_before_self, (major_with_us c M).
    + exfalso. apply NC. exists c.
      split; [exact I|]. split; [now apply malformed_of_major | reflexivity].
  - now rewrite U, D.
Qed.

(** The two ways a node gets a parent. *)
Lemma edge_cases cs h x p :
  explained cs h -> edge h x p ->
  (exists c, In c cs /\ occurs us c = true
             /\ x = before dot c /\ p = before us c) \/
  (exists c, In c cs /\ occurs us c = true /\ occurs dot c = true
             /\ x = c /\ p = before dot c).
Proof.
  intros [E1 _] [nd [G I]].
  destruct (E1 _ _ G) as [k S | c Ic | c Ic U | c Ic U D];
    cbn [parents] in I; try now destruct I.
  - destruct I as [<- | []]. left. now exists c.
  - destruct I as [<- | []]. right. now exists c.
Qed.

(** In a chain of two edges the lower one is that of a major lineage, and
    a third edge on top makes the genotype in the middle clash. *)
Lemma chain_lower_edge cs h x0 x1 x2 :
  explained cs h -> edge h x0 x1 -> edge h x1 x2 ->
  exists c, In c cs /\ occurs us c = true
            /\ x1 = before dot c /\ x2 = before us c.
Proof.
  intros X E01 E12.
  destruct (edge_cases _ _ _ _ X E12) as [H | [c [_ [U [D [-> _]]]]]];
    [exact H|].
  exfalso.
  destruct (edge_cases _ _ _ _ X E01)
    as [[c0 [_ [_ [_ E]]]] | [c0 [_ [_ [_ [_ E]]]]]].
  - rewrite E, occurs_before_self in U. discriminate.
  - rewrite E, occurs_before_self in D. discriminate.
Qed.

Lemma chain_upper_edge cs h x2 x3 :
  explained cs h -> occurs us x2 = false -> edge h x2 x3 ->
  clashing cs x2 /\ occurs us x3 = false /\ occurs dot x3 = true.
Proof.
  intros X U2 E23.
  destruct (edge_cases _ _ _ _ X E23)
    as [[c [I [U [E2 E3]]]] | [c [_ [U [_ [E _]]]]]].
  - subst x2 x3.
    pose proof (malformed_of_major c U U2) as W.
    destruct (malformed_marks c W) as [_ [D _]].
    split; [now exists c|]. split; [apply occurs_before_self | exact D].
  - subst x2. rewrite U in U2. discriminate.
Qed.

(* ================================================================== *)
(** * The label parser *)

(** C4 (as written in the specification, refuted).  The specification
    makes the minor lineage empty whenever the major lineage is empty.  On
    the label [._a] the code returns an empty major lineage and the whole
    label as minor lineage. *)
Lemma parse_label_minor_not_as_specified :
  ~ parses_as minor_empty_as_specified "._a".
Proof.
  intros [g [m [n [P [_ [_ [_ [E _]]]]]]]].
  vm_compute in P. injection P as <- <- <-.
  assert (N : "._a" = EmptyString) by (apply E; now left).
  discriminate N.
Qed.

(** C4 (amended).  For every non-empty label [s], [parse_label s] returns
    [(g, m, n)] where [g] is the part of [s] before the first underscore
    (all of [s] without one); [m] is empty without an underscore and
    otherwise the part of [s] before the first dot (all of [s] without
    one); [n] is empty when [s] has no underscore or no dot, and otherwise
    is [s] itself.  So a non-empty [n] is [s], a non-empty [m] is a prefix
    of [s], and [g] is a prefix of [s]. *)
Theorem parse_label_parts s :
  s <> EmptyString -> parses_as minor_empty_as_coded s.
Proof.
  intros _. exists (before us s).
  exists (if occurs us s then before dot s else EmptyString).
  exists (if occurs us s && occurs dot s then s else EmptyString).
  split; [apply parse_label_eq|].
  split; [apply before_spec|].
  unfold minor_empty_as_coded.
  destruct (occurs us s) eqn:U, (occurs dot s) eqn:D; cbn [andb];
    repeat split; intros; try congruence; try apply before_spec;
    try apply before_prefix; try tauto.
  all: try (exfalso; match goal with H : ~ _ |- _ => apply H; auto end).
  all: match goal with H : _ \/ _ |- _ => destruct H; discriminate end.
Qed.

Lemma parse_label_parts_witness : parses_as minor_empty_as_coded "X_1.2.3".
Proof. apply (parse_label_parts "X_1.2.3"). discriminate. Defined.

(* ================================================================== *)
(** * The hierarchy builder *)

(** C7.  From the clades [A_1] and [A_1.2] the builder returns exactly
    five nodes: the two sentinels, the genotype [A] without parent, the
    major lineage [A_1] under [A] and the minor lineage [A_1.2] under
    [A_1], none with an alias. *)
Theorem build_A_1_example :
  load_lineage_files ["A_1"; "A_1.2"] =
    Ok [ ("unassigned", mk_node [] []);
         ("None", mk_node [] []);
         ("A", mk_node [] []);
         ("A_1", mk_node [] ["A"]);
         ("A_1.2", mk_node [] ["A_1"]) ]
  /\ (forall h, load_lineage_files ["A_1"; "A_1.2"] = Ok h -> len (keys h) = 5).
Proof.
  split; [reflexivity|].
  intros h H. vm_compute in H. injection H as <-. reflexivity.
Qed.

(** C6.  Whatever the input, the empty input and inputs whose parsed
    names are sentinel names included, the hierarchy has the keys
    [unassigned] and [None], each without alias and without parent. *)
Theorem sentinel_invariant cs :
  exists h,
    load_lineage_files cs = Ok h /\
    entry h "unassigned" [] /\ entry h "None" [].
Proof.
  exists (fold_left step cs sentinels). split; [apply load_eq|].
  split; apply fold_keeps; reflexivity.
Qed.

Lemma getitem_add_new k v d :
  contains k d = false -> getitem (add_if_absent k v d) k = Ok v.
Proof.
  intros C. unfold add_if_absent. rewrite C, getitem_setitem.
  now rewrite String.eqb_refl.
Qed.

Lemma step_keeps_from_first d c k nd :
  getitem (add_if_absent (before us c) (mk_node [] []) d) k = Ok nd ->
  getitem (step d c) k = Ok nd.
Proof.
  intros H. unfold step.
  destruct (occurs us c); [destruct (occurs dot c)|].
  - now do 2 apply getitem_add_keep.
  - now apply getitem_add_keep.
  - exact H.
Qed.

(** What a pass of the loop writes for the names that were not keys. *)
Lemma step_inserts d c :
  (contains (before us c) d = false ->
   getitem (step d c) (before us c) = Ok (mk_node [] [])) /\
  (occurs us c = true -> contains (before dot c) d = false ->
   getitem (step d c) (before dot c) = Ok (mk_node [] [before us c])) /\
  (occurs us c = true -> occurs dot c = true -> contains c d = false ->
   getitem (step d c) c = Ok (mk_node [] [before dot c])).
Proof.
  split; [|split].
  - intros C. apply step_keeps_from_first.
    now apply getitem_add_new.
  - intros U C. unfold step. rewrite U.
    assert (G : getitem
                  (add_if_absent (before dot c) (mk_node [] [before us c])
                     (add_if_absent (before us c) (mk_node [] []) d))
                  (before dot c) = Ok (mk_node [] [before us c])).
    { apply getitem_add_new. rewrite contains_add, C, orb_false_r.
      apply String.eqb_neq. intros E. symmetry in E.
      now apply (major_neq_genotype c U). }
    destruct (occurs dot c); [now apply getitem_add_keep | exact G].
  - intros U D C. unfold step. rewrite U, D.
    apply getitem_add_new. rewrite !contains_add, C, orb_false_r.
    apply orb_false_iff. split; apply String.eqb_neq; intros E.
    + pose proof (occurs_before_self dot c) as H. rewrite E, D in H.
      discriminate.
    + pose proof (occurs_before_self us c) as H. rewrite E, U in H.
      discriminate.
Qed.

(** C8.  First write wins.  One pass of the loop makes the genotype, the
    major lineage and the minor lineage of its clade keys of the
    hierarchy, writes the entry of each of these names that was not a key
    yet, and leaves every entry that was already there as it is.  So the
    entries present after a prefix of the input are those of the final
    hierarchy, and each name that an input row produces is the key of
    exactly one node. *)
Theorem first_write_wins :
  (forall d c, exists d' g m n,
      process_clade d c = Ok d' /\
      parse_label c = Ok (g, m, n) /\
      (forall k nd, getitem d k = Ok nd -> getitem d' k = Ok nd) /\
      contains g d' = true /\
      (m <> EmptyString -> contains m d' = true) /\
      (n <> EmptyString -> contains n d' = true) /\
      (contains g d = false -> getitem d' g = Ok (mk_node [] [])) /\
      (m <> EmptyString -> contains m d = false ->
       getitem d' m = Ok (mk_node [] [g])) /\
      (n <> EmptyString -> contains n d = false ->
       getitem d' n = Ok (mk_node [] [m]))) /\
  (forall cs1 cs2, exists h1 h2,
      load_lineage_files cs1 = Ok h1 /\
      load_lineage_files (cs1 ++ cs2) = Ok h2 /\
      forall k nd, getitem h1 k = Ok nd -> getitem h2 k = Ok nd) /\
  (forall cs, exists h,
      load_lineage_files cs = Ok h /\ NoDup (keys h) /\
      (forall k, contains k h = true ->
                 count_occ string_dec (keys h) k = 1) /\
      (forall c g m n, In c cs -> parse_label c = Ok (g, m, n) ->
         count_occ string_dec (keys h) g = 1 /\
         (m <> EmptyString -> count_occ string_dec (keys h) m = 1) /\
         (n <> EmptyString -> count_occ string_dec (keys h) n = 1))).
Proof.
  split; [|split].
  - intros d c.
    exists (step d c), (before us c),
      (if occurs us c then before dot c else EmptyString),
      (if occurs us c && occurs dot c then c else EmptyString).
    split; [apply process_clade_eq|]. split; [apply parse_label_eq|].
    split; [intros k nd; apply step_keeps|].
    destruct (step_inserts d c) as [Ig [Im In']].
    split.
    { rewrite contains_step, String.eqb_refl. now rewrite !orb_true_r. }
    destruct (occurs us c) eqn:U; [destruct (occurs dot c) eqn:D|];
      cbn [andb]; repeat split; intros; try congruence; auto;
      rewrite contains_step, ?U, ?D, String.eqb_refl; cbn [andb orb];
      rewrite ?orb_true_r; reflexivity.
  - intros cs1 cs2.
    exists (fold_left step cs1 sentinels).
    exists (fold_left step (cs1 ++ cs2) sentinels).
    split; [apply load_eq|]. split; [apply load_eq|].
    intros k nd H. rewrite fold_left_app. now apply fold_keeps.
  - intros cs. exists (fold_left step cs sentinels).
    split; [apply load_eq|].
    assert (N : NoDup (keys (fold_left step cs sentinels)))
      by apply fold_NoDup, sentinels_NoDup.
    split; [exact N|].
    assert (One : forall k,
               contains k (fold_left step cs sentinels) = true ->
               count_occ string_dec (keys (fold_left step cs sentinels)) k
               = 1).
    { intros k H. apply contains_In in H.
      apply NoDup_count_occ' with (decA := string_dec); assumption. }
    split; [exact One|].
    destruct (built_explained cs) as [_ E2].
    intros c g m n I P. rewrite parse_label_eq in P. unfold key_of in P.
    destruct (occurs us c) eqn:U; [destruct (occurs dot c) eqn:D|];
      cbn [andb] in P; injection P as <- <- <-;
      repeat split; intros; try congruence; apply One.
    all: try (apply (E2 _ (mk_node [] [])); now apply from_genotype).
    all: try (apply (E2 _ (mk_node [] [before us c])); now apply from_major).
    all: try (apply (E2 _ (mk_node [] [before dot c])); now apply from_minor).
Qed.

(** C9.  The builder returns a hierarchy for every input sequence, the
    empty string and malformed labels included, and the genotype that
    [parse_label] gives for an input string is a key of that hierarchy. *)
Theorem builder_total cs :
  exists h,
    load_lineage_files cs = Ok h /\
    forall s, In s cs ->
      exists g m n, parse_label s = Ok (g, m, n) /\ contains g h = true.
Proof.
  exists (fold_left step cs sentinels). split; [apply load_eq|].
  intros s I.
  exists (before us s), (if occurs us s then before dot s else EmptyString),
    (if occurs us s && occurs dot s then s else EmptyString).
  split; [apply parse_label_eq|].
  apply (proj2 (built_explained cs) _ (mk_node [] [])).
  now apply from_genotype.
Qed.

(** C5.  Parent closure: in the hierarchy built from any input, a node
    has no parent or exactly one, and that parent is a key of the
    hierarchy. *)
Theorem parent_closure cs :
  exists h,
    load_lineage_files cs = Ok h /\
    forall x nd, getitem h x = Ok nd ->
      parents nd = [] \/
      exists p, parents nd = [p] /\ contains p h = true.
Proof.
  exists (fold_left step cs sentinels). split; [apply load_eq|].
  intros x nd G. destruct (built_explained cs) as [E1 E2].
  destruct (E1 _ _ G) as [k S | c I | c I U | c I U D]; cbn [parents].
  - now left.
  - now left.
  - right. exists (before us c). split; [reflexivity|].
    apply (E2 _ (mk_node [] [])). now apply from_genotype.
  - right. exists (before dot c). split; [reflexivity|].
    apply (E2 _ (mk_node [] [before us c])). now apply from_major.
Qed.

(** C2 (as written in the specification, refuted).  From the clades
    [A.1_2] and [A_3.4] the builder returns a chain of three edges:
    [A_3.4] under [A_3] under [A] under [A.1]. *)
Lemma chain_of_three_edges : ~ three_level_forest ["A.1_2"; "A_3.4"].
Proof.
  intros [h [L [_ [_ [_ [Dp _]]]]]].
  vm_compute in L. injection L as <-.
  apply (Dp "A_3.4" "A_3" "A" "A.1").
  - exists (mk_node [] ["A_3"]). split; [reflexivity | now left].
  - exists (mk_node [] ["A"]). split; [reflexivity | now left].
  - exists (mk_node [] ["A.1"]). split; [reflexivity | now left].
Qed.

(** The other places where the forest of the specification gives way:
    the genotype [A] of [A_3.4] has a parent; the major lineage [A] of
    [A.1_2], which has no underscore, has none when the bare label [A]
    comes first; the labels [None_1] and [None.x_y] put a node under a
    sentinel. *)
Lemma forest_exceptions :
  (exists h, load_lineage_files ["A.1_2"; "A_3.4"] = Ok h /\
             parse_label "A_3.4" = Ok ("A", "A_3", "A_3.4") /\
             entry h "A" ["A.1"]) /\
  (exists h, load_lineage_files ["A"; "A.1_2"] = Ok h /\
             parse_label "A.1_2" = Ok ("A.1", "A", "A.1_2") /\
             entry h "A" []) /\
  (exists h, load_lineage_files ["None_1"] = Ok h /\ edge h "None_1" "None") /\
  (exists h, load_lineage_files ["None.x_y"] = Ok h /\
             edge h "None.x_y" "None").
Proof.
  repeat split.
  - eexists. repeat split; reflexivity.
  - eexists. repeat split; reflexivity.
  - eexists. split; [reflexivity|].
    exists (mk_node [] ["None"]). split; [reflexivity | now left].
  - eexists. split; [reflexivity|].
    exists (mk_node [] ["None"]). split; [reflexivity | now left].
Qed.

(** C2 (amended).  For every input, the entry of a node is one of those
    the input proposes for its name (no parent for a sentinel and for the
    genotype of a label, the genotype for the major lineage of a label
    with an underscore, the major lineage for a minor lineage), and it is
    that entry whenever a single one is proposed.  So the minor lineage of
    a label is a node whose single parent is the label's major lineage; a
    major lineage that has an underscore is a node whose single parent is
    the label's genotype; the genotype of a label is a node without parent
    unless its name is clashing, that is, also the major lineage of a
    label with a dot before its first underscore; the sentinels have no
    parent.  No parent chain has more than three edges, and none has more
    than two unless the genotype of a label with an underscore is
    clashing.  The sentinels have no child exactly when no label with an
    underscore has a sentinel name as genotype or as major lineage.  When
    no label has a dot before its first underscore, genotypes have no
    parent, major lineages have their genotype as single parent, and no
    chain has more than two edges. *)
Theorem forest_of_well_formed cs :
  exists h,
    load_lineage_files cs = Ok h /\
    (forall k nd, getitem h k = Ok nd -> origin cs k nd) /\
    (forall k nd,
        origin cs k nd -> (forall nd', origin cs k nd' -> nd' = nd) ->
        getitem h k = Ok nd) /\
    minor_level h cs /\
    (forall c g m n,
        In c cs -> parse_label c = Ok (g, m, n) -> occurs us m = true ->
        entry h m [g]) /\
    (forall c g m n,
        In c cs -> parse_label c = Ok (g, m, n) -> ~ clashing cs g ->
        entry h g []) /\
    sentinels_parentless h /\
    depth_le_3 h /\
    ((forall c, In c cs -> occurs us c = true ->
                ~ clashing cs (before us c)) ->
     depth_le_2 h) /\
    (sentinels_childless h <->
     forall c, In c cs -> occurs us c = true ->
               ~ sentinel (before us c) /\ ~ sentinel (before dot c)) /\
    (forallb well_formed cs = true ->
     genotype_level h cs /\ major_level h cs /\ depth_le_2 h).
Proof.
  exists (fold_left step cs sentinels).
  pose proof (load_eq cs) as L.
  pose proof (built_explained cs) as X. destruct X as [E1 E2].
  assert (X : explained cs (fold_left step cs sentinels)) by now split.
  assert (single : forall k nd,
             origin cs k nd -> (forall nd', origin cs k nd' -> nd' = nd) ->
             getitem (fold_left step cs sentinels) k = Ok nd).
  { intros k nd O U. destruct (getitem_present k _ (E2 _ _ O)) as [nd' G].
    rewrite G. f_equal. apply U. now apply E1. }
  assert (plain : forall k nd,
             origin cs k nd -> ~ clashing cs k ->
             getitem (fold_left step cs sentinels) k = Ok nd).
  { intros k nd O NC. apply single; [exact O|].
    intros nd' O'.
    rewrite (origin_of_not_clashing _ _ _ O NC).
    now apply (origin_of_not_clashing cs). }
  assert (marked : forall k, occurs us k = true \/ occurs dot k = true ->
                             ~ clashing cs k).
  { intros k M C. destruct (clashing_marks _ _ C) as [U D].
    destruct M; congruence. }
  assert (minor : minor_level (fold_left step cs sentinels) cs).
  { intros c g m n I P N. rewrite parse_label_eq in P. unfold key_of in P.
    destruct (occurs us c) eqn:U; [destruct (occurs dot c) eqn:D|];
      injection P as <- <- <-; try congruence.
    apply plain; [now apply from_minor | apply marked; now left]. }
  assert (major : forall c g m n,
             In c cs -> parse_label c = Ok (g, m, n) ->
             occurs us m = true ->
             entry (fold_left step cs sentinels) m [g]).
  { intros c g m n I P M. rewrite parse_label_eq in P. unfold key_of in P.
    destruct (occurs us c) eqn:U; injection P as <- <- _; [|discriminate].
    apply plain; [now apply from_major | apply marked; now left]. }
  assert (geno : forall c g m n,
             In c cs -> parse_label c = Ok (g, m, n) -> ~ clashing cs g ->
             entry (fold_left step cs sentinels) g []).
  { intros c g m n I P NC. rewrite parse_label_eq in P.
    injection P as <- _ _. apply plain; [now apply from_genotype | exact NC]. }
  assert (two : (forall c, In c cs -> occurs us c = true ->
                           ~ clashing cs (before us c)) ->
                depth_le_2 (fold_left step cs sentinels)).
  { intros NC x0 x1 x2 x3 E01 E12 E23.
    destruct (chain_lower_edge _ _ _ _ _ X E01 E12) as [c [I [U [_ E2']]]].
    subst x2.
    destruct (chain_upper_edge _ _ _ _ X (occurs_before_self us c) E23)
      as [C _].
    exact (NC c I U C). }
  split; [exact L|]. split; [exact E1|]. split; [exact single|].
  split; [exact minor|]. split; [exact major|]. split; [exact geno|].
  split; [|split; [|split; [exact two|split]]].
  - intros k S. apply fold_keeps. destruct S as [-> | ->]; reflexivity.
  - intros x0 x1 x2 x3 x4 E01 E12 E23 E34.
    destruct (chain_lower_edge _ _ _ _ _ X E01 E12) as [c [I [U [_ E2']]]].
    subst x2.
    destruct (chain_upper_edge _ _ _ _ X (occurs_before_self us c) E23)
      as [_ [U3 D3]].
    destruct (edge_cases _ _ _ _ X E34)
      as [[c3 [_ [_ [E _]]]] | [c3 [_ [U' [_ [E _]]]]]].
    + rewrite E, occurs_before_self in D3. discriminate.
    + subst x3. rewrite U' in U3. discriminate.
  - split.
    + intros Ch c I U. split; intros S.
      * pose proof (sentinel_no_dot _ S) as D.
        assert (W : well_formed c = true).
        { unfold well_formed. now rewrite U, D. }
        pose proof (well_formed_major c W U) as M.
        apply (Ch (before dot c) (before us c) S).
        exists (mk_node [] [before us c]). split; [|now left].
        apply (major c (before us c) (before dot c)
                 (if occurs dot c then c else EmptyString) I); [|exact M].
        rewrite parse_label_eq. unfold key_of. now rewrite U.
      * destruct (occurs dot c) eqn:D.
        -- apply (Ch c (before dot c) S).
           exists (mk_node [] [before dot c]). split; [|now left].
           apply (minor c (before us c) (before dot c) c I).
           ++ rewrite parse_label_eq. unfold key_of. now rewrite U, D.
           ++ now apply (occurs_nonempty us).
        -- rewrite (before_absent _ _ D) in S.
           rewrite (sentinel_no_us _ S) in U. discriminate.
    + intros NS x k S E.
      destruct (edge_cases _ _ _ _ X E)
        as [[c [I [U [_ Ek]]]] | [c [I [U [_ [_ Ek]]]]]];
        subst k; destruct (NS c I U); contradiction.
  - intros W.
    assert (NC : forall k, ~ clashing cs k)
      by (intros k; now apply no_clashing_of_well_formed).
    split; [|split].
    + intros c g m n I P. now apply (geno c g m n).
    + intros c g m n I P N. apply (major c g m n I P).
      rewrite parse_label_eq in P. unfold key_of in P.
      destruct (occurs us c) eqn:U; injection P as _ <- _; [|congruence].
      rewrite forallb_forall in W. now apply well_formed_major; [apply W|].
    + apply two. intros c I U. apply NC.
Qed.

Lemma forest_of_well_formed_witness : three_level_forest ["A_1"; "A_1.2"].
Proof.
  destruct (forest_of_well_formed ["A_1"; "A_1.2"])
    as [h [L [_ [_ [Mi [_ [_ [Sp [_ [_ [Sc W]]]]]]]]]]].
  destruct (W eq_refl) as [Ge [Ma De]].
  exists h. repeat (split; [assumption|]).
  apply Sc. intros c I U.
  simpl in I. destruct I as [<- | [<- | []]];
    split; intros [S | S]; discriminate S.
Defined.

(** C3 (as written in the specification, refuted).  The inputs [A],
    [A.1_2] and [A.1_2], [A] hold the same strings, yet node [A] has no
    parent in the first hierarchy and the parent [A.1] in the second. *)
Lemma build_depends_on_order :
  (forall c, In c ["A"; "A.1_2"] <-> In c ["A.1_2"; "A"]) /\
  ~ order_independent ["A"; "A.1_2"] ["A.1_2"; "A"].
Proof.
  split; [intros c; simpl; tauto|].
  intros [h1 [h2 [L1 [L2 [_ S]]]]].
  vm_compute in L1, L2. injection L1 as <-. injection L2 as <-.
  specialize (S "A"). vm_compute in S. discriminate S.
Qed.

(** C3 (amended).  For two input sequences that hold the same strings, in
    any order and with any duplication, the builder returns hierarchies
    with the same node names, and with the same entry at every name for
    which the input proposes a single entry.  That is so at every name
    that is not clashing (not the major lineage of a label with a dot
    before its first underscore), hence at every name with an underscore
    or a dot, and at every name when no label has a dot before its first
    underscore. *)
Theorem build_order_independent cs1 cs2 :
  (forall c, In c cs1 <-> In c cs2) ->
  exists h1 h2,
    load_lineage_files cs1 = Ok h1 /\ load_lineage_files cs2 = Ok h2 /\
    same_names h1 h2 /\
    (forall k,
        (forall nd nd', origin cs1 k nd -> origin cs1 k nd' -> nd = nd') ->
        getitem h1 k = getitem h2 k) /\
    (forall k, ~ clashing cs1 k -> getitem h1 k = getitem h2 k) /\
    (forall k, occurs us k = true \/ occurs dot k = true ->
               getitem h1 k = getitem h2 k) /\
    (forallb well_formed cs1 = true -> same_entries h1 h2).
Proof.
  intros Same.
  exists (fold_left step cs1 sentinels), (fold_left step cs2 sentinels).
  pose proof (load_eq cs1) as L1. pose proof (load_eq cs2) as L2.
  split; [exact L1|]. split; [exact L2|].
  pose proof (built_explained cs1) as X1.
  pose proof (built_explained cs2) as X2.
  assert (X21 : explained cs1 (fold_left step cs2 sentinels)).
  { apply (explained_ext cs2); [intros c; symmetry; apply Same | exact X2]. }
  assert (K : same_names (fold_left step cs1 sentinels)
                         (fold_left step cs2 sentinels)).
  { intros k.
    destruct (contains k (fold_left step cs1 sentinels)) eqn:C1.
    - destruct (getitem_present _ _ C1) as [nd G].
      symmetry. apply (proj2 X21 k nd). now apply (proj1 X1).
    - destruct (contains k (fold_left step cs2 sentinels)) eqn:C2;
        [|reflexivity].
      destruct (getitem_present _ _ C2) as [nd G].
      rewrite <- C1. apply (proj2 X1 k nd). now apply (proj1 X21). }
  assert (single : forall k,
             (forall nd nd', origin cs1 k nd -> origin cs1 k nd' -> nd = nd')
             -> getitem (fold_left step cs1 sentinels) k
                = getitem (fold_left step cs2 sentinels) k).
  { intros k U.
    destruct (contains k (fold_left step cs1 sentinels)) eqn:C1.
    - destruct (getitem_present _ _ C1) as [n1 G1].
      rewrite K in C1. destruct (getitem_present _ _ C1) as [n2 G2].
      rewrite G1, G2. f_equal.
      apply U; [now apply (proj1 X1) | now apply (proj1 X21)].
    - rewrite (getitem_absent _ _ C1). rewrite K in C1.
      now rewrite (getitem_absent _ _ C1). }
  assert (plain : forall k, ~ clashing cs1 k ->
                    getitem (fold_left step cs1 sentinels) k
                    = getitem (fold_left step cs2 sentinels) k).
  { intros k NC. apply single. intros nd nd' O O'.
    rewrite (origin_of_not_clashing _ _ _ O NC).
    now rewrite (origin_of_not_clashing _ _ _ O' NC). }
  split; [exact K|]. split; [exact single|]. split; [exact plain|].
  split.
  - intros k M. apply plain. intros C.
    destruct (clashing_marks _ _ C) as [U D]. destruct M; congruence.
  - intros W k. apply plain. now apply no_clashing_of_well_formed.
Qed.

Lemma build_order_independent_witness :
  order_independent ["A_1"; "A_1.2"] ["A_1.2"; "A_1"; "A_1.2"].
Proof.
  destruct (build_order_independent
              ["A_1"; "A_1.2"] ["A_1.2"; "A_1"; "A_1.2"])
    as [h1 [h2 [L1 [L2 [N [_ [_ [_ E]]]]]]]].
  - intros c. simpl. tauto.
  - exists h1, h2. repeat (split; [assumption|]). now apply E.
Defined.

(* ================================================================== *)
(** * The hierarchy writer *)

(** C1.  The code does not keep the order its comment at lines 90-91
    promises ("maintain the topological order"): from the clade [A.1_2]
    the builder makes [A] a child of [A.1], and the writer, sorting by the
    key [parse_label], writes the child [A] before its parent [A.1]. *)
Theorem topological_order_broken :
  exists h out,
    load_lineage_files ["A.1_2"] = Ok h /\
    generate_hierarchy_file h = Ok out /\
    entry h "A" ["A.1"] /\
    names_written out = ["A"; "A.1"; "A.1_2"; "None"; "unassigned"] /\
    emitted_before "A" "A.1" (names_written out) /\
    ~ emitted_before "A.1" "A" (names_written out).
Proof.
  eexists. eexists.
  split; [reflexivity|]. split; [reflexivity|]. split; [reflexivity|].
  split; [reflexivity|]. split.
  - exists [], [], ["A.1_2"; "None"; "unassigned"]. reflexivity.
  - intros F. cbn in F.
    apply emitted_before_cons in F.
    destruct F as [[E _] | F]; [discriminate E|].
    apply emitted_before_cons in F.
    destruct F as [[_ I] | F]; [simpl in I; intuition discriminate|].
    apply emitted_before_cons in F.
    destruct F as [[E _] | F]; [discriminate E|].
    apply emitted_before_cons in F.
    destruct F as [[E _] | F]; [discriminate E|].
    apply emitted_before_cons in F.
    destruct F as [[E _] | F]; [discriminate E|].
    now apply emitted_before_nil in F.
Qed.

(** Hence not every parent is written first for this input. *)
Lemma child_written_before_parent : ~ parents_first ["A.1_2"].
Proof.
  intros [h [out [L [G F]]]].
  vm_compute in L. injection L as <-.
  vm_compute in G. injection G as <-.
  specialize (F "A" (mk_node [] ["A.1"]) "A.1" eq_refl (or_introl eq_refl)).
  cbn in F.
  apply emitted_before_cons in F. destruct F as [[E _] | F]; [discriminate E|].
  apply emitted_before_cons in F.
  destruct F as [[_ I] | F]; [simpl in I; intuition discriminate|].
  apply emitted_before_cons in F.
  destruct F as [[E _] | F]; [discriminate E|].
  apply emitted_before_cons in F.
  destruct F as [[E _] | F]; [discriminate E|].
  apply emitted_before_cons in F.
  destruct F as [[E _] | F]; [discriminate E|].
  now apply emitted_before_nil in F.
Qed.



(** C10.  The order of the written names is a function of the key set:
    two hierarchies whose keys are the same up to iteration order are
    written with their names in the same sequence (and to the same file
    when their entries agree).  [parse_label] is injective, so the sort
    key orders distinct names strictly, without ties. *)
Theorem write_order_deterministic :
  (forall h1 h2, Permutation (keys h1) (keys h2) ->
     exists out1 out2,
       generate_hierarchy_file h1 = Ok out1 /\
       generate_hierarchy_file h2 = Ok out2 /\
       names_written out1 = names_written out2 /\
       ((forall k, getitem h1 k = getitem h2 k) -> out1 = out2)) /\
  (forall s1 s2, parse_label s1 = parse_label s2 -> s1 = s2) /\
  (forall s1 s2, s1 <> s2 ->
     exists k1 k2,
       parse_label s1 = Ok k1 /\ parse_label s2 = Ok k2 /\
       xorb (tuple_lt k1 k2) (tuple_lt k2 k1) = true) /\
  (forall s, exists k, parse_label s = Ok k /\ tuple_lt k k = false) /\
  (forall k1 k2 k3,
     tuple_lt k1 k2 = true -> tuple_lt k2 k3 = true -> tuple_lt k1 k3 = true).
Proof.
  split; [|split; [|split; [|split]]].
  - intros h1 h2 P.
    destruct (generate_ok h1) as [out1 [G1 N1]].
    destruct (generate_ok h2) as [out2 [G2 N2]].
    exists out1, out2. split; [exact G1|]. split; [exact G2|].
    split.
    + rewrite N1, N2. now apply sorted_names_permutation_invariant.
    + intros E. unfold generate_hierarchy_file in G1, G2.
      rewrite sorted_eq in G1, G2. cbn [bind] in G1, G2.
      rewrite (sorted_names_permutation_invariant _ _ P) in G1.
      rewrite (write_nodes_ext h1 h2 _ E) in G1.
      rewrite G1 in G2. now injection G2.
  - apply parse_label_inj.
  - intros s1 s2 N. exists (key_of s1), (key_of s2).
    split; [apply parse_label_eq|]. split; [apply parse_label_eq|].
    assert (K : key_of s1 <> key_of s2)
      by (intros E; now apply key_of_inj in E).
    destruct (tuple_lt_total _ _ K) as [T | T];
      rewrite T, (tuple_lt_asym _ _ T); reflexivity.
  - intros s. exists (key_of s). split; [apply parse_label_eq|].
    apply tuple_lt_irrefl.
  - apply tuple_lt_trans.
Qed.

Lemma write_order_deterministic_witness :
  exists out1 out2,
    generate_hierarchy_file
      [("A_1", mk_node [] ["A"]); ("A", mk_node [] [])] = Ok out1 /\
    generate_hierarchy_file
      [("A", mk_node [] []); ("A_1", mk_node [] ["A"])] = Ok out2 /\
    names_written out1 = names_written out2 /\
    ((forall k,
        getitem [("A_1", mk_node [] ["A"]); ("A", mk_node [] [])] k =
        getitem [("A", mk_node [] []); ("A_1", mk_node [] ["A"])] k) ->
     out1 = out2).
Proof.
  apply (proj1 write_order_deterministic
           [("A_1", mk_node [] ["A"]); ("A", mk_node [] [])]
           [("A", mk_node [] []); ("A_1", mk_node [] ["A"])]).
  simpl. apply perm_swap.
Defined.

(* ================================================================== *)
(** * Further properties of the builder *)

Lemma contains_step_mono d c k :
  contains k d = true -> contains k (step d c) = true.
Proof. intros H. rewrite contains_step, H. apply orb_true_r. Qed.

Lemma step_processed d c : processed c d = true -> step d c = d.
Proof.
  unfold processed, step, add_if_absent. intros H.
  apply andb_true_iff in H. destruct H as [G H]. rewrite G.
  destruct (occurs us c); [|reflexivity].
  simpl in H. apply andb_true_iff in H. destruct H as [M H]. rewrite M.
  destruct (occurs dot c); [|reflexivity].
  simpl in H. now rewrite H.
Qed.

Lemma processed_step d c : processed c (step d c) = true.
Proof.
  unfold processed. rewrite !contains_step, !String.eqb_refl.
  destruct (occurs us c), (occurs dot c); simpl;
    rewrite ?orb_true_r; reflexivity.
Qed.

Lemma processed_mono d c c' :
  processed c d = true -> processed c (step d c') = true.
Proof.
  unfold processed. intros H.
  apply andb_true_iff in H. destruct H as [G H].
  rewrite (contains_step_mono _ _ _ G). simpl.
  destruct (occurs us c); [|reflexivity]. simpl in *.
  apply andb_true_iff in H. destruct H as [M H].
  rewrite (contains_step_mono _ _ _ M). simpl.
  destruct (occurs dot c); [|reflexivity]. simpl in *.
  now apply contains_step_mono.
Qed.

Lemma processed_fold cs : forall d c,
  processed c d = true -> processed c (fold_left step cs d) = true.
Proof.
  induction cs as [|c' cs IH]; intros d c H; simpl; [exact H|].
  apply IH. now apply processed_mono.
Qed.

Lemma fold_unique_from xs : forall seen d,
  (forall s, In s seen -> processed s d = true) ->
  fold_left step (Pd.unique_from seen xs) d = fold_left step xs d.
Proof.
  induction xs as [|x xs IH]; intros seen d P; simpl; [reflexivity|].
  destruct (existsb (String.eqb x) seen) eqn:E.
  - apply existsb_exists in E. destruct E as [s [I E]].
    apply String.eqb_eq in E. subst s.
    rewrite (step_processed d x (P x I)). now apply IH.
  - simpl. apply IH. intros s [<- | I].
    + apply processed_step.
    + apply processed_mono. now apply P.
Qed.

Lemma len_keys_add k v (d : hierarchy) :
  len (keys (add_if_absent k v d)) =
    (len (keys d) + if contains k d then 0 else 1)%nat.
Proof.
  unfold add_if_absent, len. destruct (contains k d) eqn:E.
  - now rewrite Nat.add_0_r.
  - rewrite keys_setitem, E. now rewrite length_app.
Qed.

Lemma len_keys_step d c :
  (len (keys d) <= len (keys (step d c)) <= len (keys d) + 3)%nat.
Proof.
  unfold step.
  destruct (occurs us c); [destruct (occurs dot c)|];
    rewrite ?len_keys_add;
    repeat match goal with
      | |- context [if contains ?k ?d then _ else _] =>
          destruct (contains k d)
      end; lia.
Qed.

Lemma len_keys_fold cs : forall d,
  (len (keys d) <= len (keys (fold_left step cs d))
   <= len (keys d) + 3 * len cs)%nat.
Proof.
  induction cs as [|c cs IH]; intros d; simpl; [unfold len; simpl; lia|].
  specialize (IH (step d c)). pose proof (len_keys_step d c).
  unfold len in *. simpl. lia.
Qed.

(** X1.  A clade that has been through the loop is absorbed from then on:
    after any further clades, running the loop body on it again returns
    the hierarchy unchanged, entries and insertion order alike. *)
Theorem processed_clade_absorbed d c cs :
  exists d1 d2,
    process_clade d c = Ok d1 /\
    for_each process_clade cs d1 = Ok d2 /\
    process_clade d2 c = Ok d2.
Proof.
  exists (step d c), (fold_left step cs (step d c)).
  split; [apply process_clade_eq|]. split; [apply for_each_eq|].
  rewrite process_clade_eq. f_equal.
  apply step_processed, processed_fold, processed_step.
Qed.

(** X2.  Duplicates in the column do not matter: the loop run over the
    values as they come returns the very hierarchy it returns over the
    distinct values, so [load_lineage_files] on a column gives what the
    loop gives on its non-missing cells. *)
Theorem duplicates_do_not_matter :
  (forall xs, exists h,
      load_lineage_files (Pd.unique xs) = Ok h /\
      load_lineage_files xs = Ok h) /\
  (forall col, exists h,
      load_lineage_column col = Ok h /\
      load_lineage_files (Pd.dropna col) = Ok h).
Proof.
  assert (U : forall xs,
             fold_left step (Pd.unique xs) sentinels
             = fold_left step xs sentinels).
  { intros xs. apply fold_unique_from. intros s []. }
  split.
  - intros xs. exists (fold_left step xs sentinels).
    split; [|apply load_eq]. now rewrite load_eq, U.
  - intros col. exists (fold_left step (Pd.dropna col) sentinels).
    split; [|apply load_eq].
    unfold load_lineage_column. now rewrite load_eq, U.
Qed.

(** X3.  The nodes of the built hierarchy are exactly the two sentinels
    and, for every input label, its genotype, its major lineage when the
    label has an underscore (the empty name included, when the label
    starts with a dot), and its minor lineage when that is not empty. *)
Theorem node_set_exact cs :
  exists h,
    load_lineage_files cs = Ok h /\
    forall k,
      contains k h = true <->
      sentinel k \/
      exists c g m n,
        In c cs /\ parse_label c = Ok (g, m, n) /\
        (k = g \/ (occurs us c = true /\ k = m)
         \/ (n <> EmptyString /\ k = n)).
Proof.
  exists (fold_left step cs sentinels). split; [apply load_eq|].
  destruct (built_explained cs) as [E1 E2].
  intros k. split.
  - intros C. destruct (getitem_present _ _ C) as [nd G].
    destruct (E1 _ _ G) as [k S | c I | c I U | c I U D].
    + now left.
    + right. exists c, (before us c),
        (if occurs us c then before dot c else EmptyString),
        (if occurs us c && occurs dot c then c else EmptyString).
      split; [exact I|]. split; [apply parse_label_eq|]. now left.
    + right. exists c, (before us c), (before dot c),
        (if occurs dot c then c else EmptyString).
      split; [exact I|]. split.
      * rewrite parse_label_eq. unfold key_of. now rewrite U.
      * right. left. now split.
    + right. exists c, (before us c), (before dot c), c.
      split; [exact I|]. split.
      * rewrite parse_label_eq. unfold key_of. now rewrite U, D.
      * right. right. split; [|reflexivity]. now apply (occurs_nonempty us).
  - intros [S | [c [g [m [n [I [P H]]]]]]].
    + apply (E2 _ (mk_node [] [])). now apply from_sentinel.
    + rewrite parse_label_eq in P. unfold key_of in P.
      destruct H as [-> | [[U ->] | [N ->]]].
      * injection P as <- _ _.
        apply (E2 _ (mk_node [] [])). now apply from_genotype.
      * rewrite U in P. injection P as _ <- _.
        apply (E2 _ (mk_node [] [before us c])). now apply from_major.
      * destruct (occurs us c) eqn:U; [destruct (occurs dot c) eqn:D|];
          simpl in P; injection P as _ _ <-; try congruence.
        apply (E2 _ (mk_node [] [before dot c])). now apply from_minor.
Qed.

(** X4.  No node of a built hierarchy has an alias. *)
Theorem aliases_always_empty cs :
  exists h,
    load_lineage_files cs = Ok h /\
    forall k nd, getitem h k = Ok nd -> aliases nd = [].
Proof.
  exists (fold_left step cs sentinels). split; [apply load_eq|].
  intros k nd G.
  now destruct (proj1 (built_explained cs) _ _ G).
Qed.

(** X5.  A built hierarchy has at least the two sentinel nodes and at
    most three nodes more per input row. *)
Theorem node_count_bounds cs :
  exists h,
    load_lineage_files cs = Ok h /\
    (2 <= len (keys h) <= 2 + 3 * len cs)%nat.
Proof.
  exists (fold_left step cs sentinels). split; [apply load_eq|].
  pose proof (len_keys_fold cs sentinels) as B.
  change (len (keys sentinels)) with 2 in B. exact B.
Qed.

(** X6.  Labels without underscore give a flat hierarchy: when no input
    label has an underscore, the nodes are the sentinels and the labels
    themselves, and no node has a parent. *)
Theorem flat_without_underscore cs :
  forallb (fun c => negb (occurs us c)) cs = true ->
  exists h,
    load_lineage_files cs = Ok h /\
    (forall k, contains k h = true <-> sentinel k \/ In k cs) /\
    (forall k nd, getitem h k = Ok nd -> nd = mk_node [] []).
Proof.
  intros F. rewrite forallb_forall in F.
  assert (NU : forall c, In c cs -> occurs us c = false).
  { intros c I. apply negb_true_iff. now apply F. }
  exists (fold_left step cs sentinels). split; [apply load_eq|].
  destruct (built_explained cs) as [E1 E2]. split.
  - intros k. split.
    + intros C. destruct (getitem_present _ _ C) as [nd G].
      destruct (E1 _ _ G) as [k S | c I | c I U | c I U D].
      * now left.
      * right. now rewrite (before_absent _ _ (NU c I)).
      * rewrite (NU c I) in U. discriminate.
      * rewrite (NU c I) in U. discriminate.
    + intros [S | I].
      * apply (E2 _ (mk_node [] [])). now apply from_sentinel.
      * rewrite <- (before_absent _ _ (NU k I)).
        apply (E2 _ (mk_node [] [])). now apply from_genotype.
  - intros k nd G.
    destruct (E1 _ _ G) as [k S | c I | c I U | c I U D]; try reflexivity;
      rewrite (NU c I) in U; discriminate.
Qed.

Lemma flat_without_underscore_witness :
  exists h,
    load_lineage_files ["A"; "A.1"; "B"] = Ok h /\
    (forall k, contains k h = true <-> sentinel k \/ In k ["A"; "A.1"; "B"]) /\
    (forall k nd, getitem h k = Ok nd -> nd = mk_node [] []).
Proof. apply (flat_without_underscore ["A"; "A.1"; "B"]). reflexivity. Defined.

(* ================================================================== *)
(** * Further properties of the parser and the writer *)

Lemma getitem_In {V} (d : dict V) k v : getitem d k = Ok v -> In (k, v) d.
Proof.
  induction d as [|[k' v'] d IH]; simpl; [discriminate|].
  destruct (String.eqb_spec k' k) as [-> | N].
  - intros H. injection H as ->. now left.
  - intros H. right. now apply IH.
Qed.

Lemma In_getitem {V} (d : dict V) k v :
  NoDup (keys d) -> In (k, v) d -> getitem d k = Ok v.
Proof.
  induction d as [|[k' v'] d IH]; simpl; [intros _ []|].
  intros N I. inversion N as [|? ? NI N']; subst.
  destruct I as [E | I].
  - injection E as -> ->. now rewrite String.eqb_refl.
  - destruct (String.eqb_spec k' k) as [-> | NE]; [|now apply IH].
    exfalso. apply NI. unfold keys. apply in_map_iff. now exists (k, v).
Qed.

(** The blocks of a list of names, with the entries they come from. *)
Lemma write_nodes_entries h names :
  (forall n, In n names -> contains n h = true) ->
  exists es,
    map_m (write_node h) names
      = Ok (map (fun ne => block (fst ne) (snd ne)) es) /\
    map fst es = names /\
    (forall ne, In ne es -> getitem h (fst ne) = Ok (snd ne)).
Proof.
  induction names as [|n names IH]; intros H.
  - exists []. repeat split. intros ne [].
  - destruct IH as [es [M [F G]]]; [intros; apply H; now right|].
    destruct (getitem_present n h) as [e Ge]; [apply H; now left|].
    exists ((n, e) :: es). split; [|split].
    + cbn [map_m map fst snd]. rewrite write_node_eq, Ge. cbn [bind].
      now rewrite M.
    + cbn [map fst]. now rewrite F.
    + intros ne [<- | I]; [exact Ge | now apply G].
Qed.

Lemma sorted_names_sorted xs :
  StronglySorted key_not_after (sorted_names xs).
Proof.
  unfold sorted_names.
  pose proof (decorated_sorted xs) as SS.
  assert (K : forall e,
             In e (sort_decorated tuple_lt (map (fun x => (key_of x, x)) xs))
             -> fst e = key_of (snd e)).
  { intros e I. apply (Permutation_in _ (sort_perm tuple_lt _)) in I.
    apply in_map_iff in I. now destruct I as [x [<- _]]. }
  induction SS as [|e l SS IH F]; simpl; [constructor|].
  constructor.
  - apply IH. intros e' I. apply K. now right.
  - rewrite Forall_forall in *. intros b Ib.
    apply in_map_iff in Ib. destruct Ib as [e' [<- Ie']].
    exists (key_of (snd e)), (key_of (snd e')).
    split; [apply parse_label_eq|]. split; [apply parse_label_eq|].
    pose proof (F e' Ie') as L. unfold le_of in L.
    rewrite (K e (or_introl eq_refl)), (K e' (or_intror Ie')) in L.
    exact L.
Qed.

Lemma strictly_sorted_of_NoDup l :
  NoDup l -> StronglySorted key_not_after l -> StronglySorted key_before l.
Proof.
  intros N SS. induction SS as [|a l SS IH F]; [constructor|].
  inversion N as [|? ? NI N']; subst.
  constructor; [now apply IH|].
  rewrite Forall_forall in *. intros b Ib.
  destruct (F b Ib) as [ka [kb [Pa [Pb L]]]].
  exists ka, kb. split; [exact Pa|]. split; [exact Pb|].
  assert (NE : ka <> kb).
  { intros ->. apply NI. rewrite <- Pb in Pa.
    apply parse_label_inj in Pa. now subst. }
  destruct (tuple_lt_total _ _ NE) as [T | T]; [exact T | congruence].
Qed.

Lemma key_le_genotype g1 m1 n1 g2 m2 n2 :
  tuple_lt (g2, m2, n2) (g1, m1, n1) = false -> (g2 <? g1) = false.
Proof.
  unfold tuple_lt.
  destruct (String.eqb_spec g2 g1) as [-> | N]; simpl; [|auto].
  intros _. apply ltb_irrefl.
Qed.

(** X7.  The writer never fails on a missing key, whatever hierarchy it
    is given, and writes every key of the hierarchy exactly as often as it
    is a key: the names written are a rearrangement of the keys. *)
Theorem writer_writes_every_key (h : hierarchy) :
  exists out,
    generate_hierarchy_file h = Ok out /\
    Permutation (names_written out) (keys h).
Proof.
  destruct (generate_ok h) as [out [G N]].
  exists out. split; [exact G|]. rewrite N. apply sorted_names_perm.
Qed.

(** X8.  The file is made of the entries of the hierarchy, one block
    each: for a hierarchy with distinct keys, the output is the
    concatenation of the blocks (name, aliases, parents in their order) of
    a rearrangement of its entries. *)
Theorem file_is_the_entries (h : hierarchy) :
  NoDup (keys h) ->
  exists out es,
    generate_hierarchy_file h = Ok out /\
    Permutation es h /\
    map fst es = names_written out /\
    out = flat_map (fun ne => block (fst ne) (snd ne)) es.
Proof.
  intros N.
  destruct (generate_ok h) as [out [G Nm]].
  destruct (write_nodes_entries h (sorted_names (keys h))) as [es [M [F E]]].
  - intros n I. apply contains_In.
    eapply Permutation_in; [apply sorted_names_perm | exact I].
  - exists out, es. split; [exact G|].
    unfold generate_hierarchy_file in G. rewrite sorted_eq in G.
    cbn [bind] in G. rewrite M in G. cbn [bind] in G. injection G as <-.
    assert (Nes : NoDup (map fst es)).
    { rewrite F. eapply Permutation_NoDup; [|exact N].
      symmetry. apply sorted_names_perm. }
    split; [|split].
    + apply NoDup_Permutation.
      * eapply NoDup_map_inv. exact Nes.
      * eapply NoDup_map_inv. exact N.
      * intros [k v]. split.
        -- intros I. apply getitem_In. exact (E _ I).
        -- intros I.
           assert (Ik : In k (map fst es)).
           { rewrite F. eapply Permutation_in;
               [symmetry; apply sorted_names_perm|].
             unfold keys. apply in_map_iff. now exists (k, v). }
           apply in_map_iff in Ik. destruct Ik as [[k' v'] [Ek Ie]].
           simpl in Ek. subst k'.
           pose proof (E _ Ie) as G1. simpl in G1.
           rewrite (In_getitem h k v N I) in G1. injection G1 as ->.
           exact Ie.
    + now rewrite F, Nm.
    + now rewrite flat_map_concat_map.
Qed.

Lemma file_is_the_entries_witness :
  exists out es,
    generate_hierarchy_file
      [("B_1", mk_node ["b"] ["B"; "A"]); ("A", mk_node [] [])] = Ok out /\
    Permutation es [("B_1", mk_node ["b"] ["B"; "A"]); ("A", mk_node [] [])] /\
    map fst es = names_written out /\
    out = flat_map (fun ne => block (fst ne) (snd ne)) es.
Proof.
  apply (file_is_the_entries
           [("B_1", mk_node ["b"] ["B"; "A"]); ("A", mk_node [] [])]).
  repeat constructor; simpl; intuition discriminate.
Defined.

(** X9.  The names are written in ascending order of their key
    [parse_label]: no name has a key below that of a name written before
    it, and with distinct keys of the hierarchy every name has a key
    strictly above those of the names before it. *)
Theorem names_written_ascending (h : hierarchy) :
  exists out,
    generate_hierarchy_file h = Ok out /\
    StronglySorted key_not_after (names_written out) /\
    (NoDup (keys h) -> StronglySorted key_before (names_written out)).
Proof.
  destruct (generate_ok h) as [out [G N]].
  exists out. split; [exact G|]. rewrite N.
  split; [apply sorted_names_sorted|].
  intros ND. apply strictly_sorted_of_NoDup; [|apply sorted_names_sorted].
  eapply Permutation_NoDup; [|exact ND]. symmetry. apply sorted_names_perm.
Qed.

(** X10.  The file groups the nodes by genotype: a name written between
    two names that parse to the same genotype parses to that genotype
    too. *)
Theorem grouped_by_genotype (h : hierarchy) :
  exists out,
    generate_hierarchy_file h = Ok out /\
    forall l1 a l2 b l3 c l4,
      names_written out = l1 ++ a :: l2 ++ b :: l3 ++ c :: l4 ->
      same_genotype a c -> same_genotype a b.
Proof.
  destruct (generate_ok h) as [out [G N]].
  exists out. split; [exact G|].
  intros l1 a l2 b l3 c l4 E [g [ma [na [mc [nc [Pa Pc]]]]]].
  pose proof (sorted_names_sorted (keys h)) as SS. rewrite <- N, E in SS.
  assert (Rab : key_not_after a b).
  { apply sorted_after_middle in SS. rewrite Forall_forall in SS.
    apply SS. apply in_or_app. right. now left. }
  assert (Rbc : key_not_after b c).
  { change (l1 ++ a :: l2 ++ b :: l3 ++ c :: l4)
      with (l1 ++ (a :: l2) ++ b :: l3 ++ c :: l4) in SS.
    rewrite app_assoc in SS.
    apply sorted_after_middle in SS. rewrite Forall_forall in SS.
    apply SS. apply in_or_app. right. now left. }
  destruct Rab as [ka [kb [Pa' [Pb Lab]]]].
  destruct Rbc as [kb' [kc [Pb' [Pc' Lbc]]]].
  rewrite Pa in Pa'. injection Pa' as <-.
  rewrite Pc in Pc'. injection Pc' as <-.
  rewrite Pb in Pb'. injection Pb' as <-.
  destruct kb as [[gb mb] nb].
  apply key_le_genotype in Lab, Lbc.
  exists g, ma, na, mb, nb. split; [exact Pa|].
  destruct (String.eqb_spec gb g) as [-> | NE]; [exact Pb|].
  destruct (ltb_total _ _ NE); congruence.
Qed.

(** X11.  Parsing what the parser returned: the genotype of a label
    parses as a genotype alone, a major lineage that has an underscore
    parses as that major lineage under the label's genotype, and a
    non-empty minor lineage parses as the label does. *)
Theorem parse_label_on_its_parts c :
  exists g m n,
    parse_label c = Ok (g, m, n) /\
    parse_label g = Ok (g, EmptyString, EmptyString) /\
    (occurs us m = true -> parse_label m = Ok (g, m, EmptyString)) /\
    (n <> EmptyString -> parse_label n = Ok (g, m, n)).
Proof.
  exists (before us c), (if occurs us c then before dot c else EmptyString),
    (if occurs us c && occurs dot c then c else EmptyString).
  split; [apply parse_label_eq|]. split; [|split].
  - rewrite parse_label_eq. f_equal.
    apply key_of_genotype, occurs_before_self.
  - destruct (occurs us c) eqn:U; [|discriminate].
    intros M. rewrite parse_label_eq. f_equal.
    rewrite (key_of_major _ M (occurs_before_self dot c)).
    now rewrite (major_with_us c M).
  - destruct (occurs us c) eqn:U; [destruct (occurs dot c) eqn:D|];
      cbn [andb]; intros N; try congruence.
    rewrite parse_label_eq. f_equal. now apply key_of_minor.
Qed.

(* ================================================================== *)
(** * Where the files go *)

Lemma append_nil_r s : (s ++ EmptyString)%string = s.
Proof. induction s as [|a s IH]; simpl; [reflexivity | now rewrite IH]. Qed.

Lemma append_assoc a b c : ((a ++ b) ++ c)%string = (a ++ b ++ c)%string.
Proof. induction a as [|x a IH]; simpl; [reflexivity | now rewrite IH]. Qed.

Lemma length_append a b :
  String.length (a ++ b) = (String.length a + String.length b)%nat.
Proof. induction a as [|x a IH]; simpl; [reflexivity | now rewrite IH]. Qed.

Lemma append_inv_tail a1 : forall a2 s,
  (a1 ++ s)%string = (a2 ++ s)%string -> a1 = a2.
Proof.
  induction a1 as [|x a1 IH]; intros a2 s E.
  - destruct a2 as [|y a2]; [reflexivity|].
    apply (f_equal String.length) in E. simpl in E.
    rewrite length_append in E. lia.
  - destruct a2 as [|y a2].
    + apply (f_equal String.length) in E. simpl in E.
      rewrite length_append in E. lia.
    + simpl in E. injection E as -> E. f_equal. exact (IH _ _ E).
Qed.

Lemma endswith_append c a b :
  b <> EmptyString ->
  PosixPath.endswith c (a ++ b) = PosixPath.endswith c b.
Proof.
  intros N. induction a as [|x a IH]; [reflexivity|].
  simpl. destruct (a ++ b)%string as [|y t] eqn:E; [|exact IH].
  destruct a; simpl in E; [congruence | discriminate].
Qed.

(** A last component that is not absolute is appended, after a separator
    when the path so far is not empty and does not end with one. *)
Lemma join_relative a b :
  PosixPath.startswith PosixPath.sep b = false ->
  PosixPath.join a b =
    (a ++ (if (a =? EmptyString) || PosixPath.endswith PosixPath.sep a
           then b else String PosixPath.sep b))%string.
Proof.
  intros R. unfold PosixPath.join. rewrite R.
  now destruct ((a =? EmptyString) || PosixPath.endswith PosixPath.sep a).
Qed.

(** Under a relative, non-empty tag the file of [output_dir] is
    [output_dir] followed by text that depends on the tag alone. *)
Lemma output_file_relative str_of_path output_dir tag :
  tag <> EmptyString ->
  PosixPath.startswith PosixPath.sep tag = false ->
  output_dir <> EmptyString ->
  PosixPath.endswith PosixPath.sep output_dir = false ->
  output_file str_of_path output_dir (Some tag) =
    (output_dir ++
       String PosixPath.sep tag ++
       (if PosixPath.endswith PosixPath.sep tag then "lineages.yaml"
        else String PosixPath.sep "lineages.yaml"))%string.
Proof.
  intros NT R ND E. unfold output_file.
  assert (T : (tag =? EmptyString) = false) by now apply String.eqb_neq.
  assert (D : (output_dir =? EmptyString) = false) by now apply String.eqb_neq.
  rewrite T. cbn [negb].
  rewrite (join_relative output_dir tag R), D, E. cbn [orb].
  rewrite join_relative by reflexivity.
  rewrite append_assoc. f_equal.
  change (String PosixPath.sep tag)
    with (String PosixPath.sep EmptyString ++ tag)%string.
  rewrite <- (append_assoc output_dir), (endswith_append _ _ tag NT).
  assert (Z : ((output_dir ++ String PosixPath.sep EmptyString) ++ tag
               =? EmptyString)%string = false).
  { apply String.eqb_neq. destruct output_dir; discriminate. }
  rewrite Z. cbn [orb].
  now destruct (PosixPath.endswith PosixPath.sep tag).
Qed.

(** X12.  An absolute dataset tag takes the output directory out of the
    path: the hierarchy file is then the same for every output directory,
    so the four runs of [main] write one and the same file. *)
Theorem absolute_tag_one_file str_of_path tag :
  PosixPath.startswith PosixPath.sep tag = true ->
  (forall output_dir,
      output_file str_of_path output_dir (Some tag)
      = PosixPath.join tag "lineages.yaml") /\
  (forall f, In f (main_output_files str_of_path (Some tag)) ->
             f = PosixPath.join tag "lineages.yaml").
Proof.
  intros A.
  assert (O : forall output_dir,
             output_file str_of_path output_dir (Some tag)
             = PosixPath.join tag "lineages.yaml").
  { intros output_dir. unfold output_file.
    destruct tag as [|a tag]; [discriminate|]. cbn [String.eqb negb].
    unfold PosixPath.join at 2. now rewrite A. }
  split; [exact O|].
  intros f I. unfold main_output_files, main_calls in I.
  rewrite map_map in I. apply in_map_iff in I.
  destruct I as [d [<- _]]. apply O.
Qed.

Lemma absolute_tag_one_file_witness :
  (forall output_dir,
      output_file (fun s => s) output_dir (Some "/data")
      = PosixPath.join "/data" "lineages.yaml") /\
  (forall f, In f (main_output_files (fun s => s) (Some "/data")) ->
             f = PosixPath.join "/data" "lineages.yaml").
Proof. apply (absolute_tag_one_file (fun s => s) "/data"). reflexivity. Defined.

(** X13.  Under a relative, non-empty dataset tag the path of the
    hierarchy file is, as a string, the output directory, a separator, the
    tag, and [lineages.yaml] after a separator of its own unless the tag
    ends with one (for an output directory that is not empty and does not
    end with a separator).  So different such directories give different
    path strings, and the four path strings of [main] are distinct.  This
    is about the strings: a tag with [..] in it can make them name one
    file all the same. *)
Theorem relative_tag_paths str_of_path tag :
  tag <> EmptyString ->
  PosixPath.startswith PosixPath.sep tag = false ->
  (forall d,
      d <> EmptyString -> PosixPath.endswith PosixPath.sep d = false ->
      output_file str_of_path d (Some tag) =
        (d ++ String PosixPath.sep tag ++
           (if PosixPath.endswith PosixPath.sep tag then "lineages.yaml"
            else String PosixPath.sep "lineages.yaml"))%string) /\
  (forall d1 d2,
      d1 <> EmptyString -> PosixPath.endswith PosixPath.sep d1 = false ->
      d2 <> EmptyString -> PosixPath.endswith PosixPath.sep d2 = false ->
      output_file str_of_path d1 (Some tag)
      = output_file str_of_path d2 (Some tag) ->
      d1 = d2) /\
  NoDup (main_output_files str_of_path (Some tag)).
Proof.
  intros NT R.
  assert (Inj : forall d1 d2,
             d1 <> EmptyString -> PosixPath.endswith PosixPath.sep d1 = false ->
             d2 <> EmptyString -> PosixPath.endswith PosixPath.sep d2 = false ->
             output_file str_of_path d1 (Some tag)
             = output_file str_of_path d2 (Some tag) ->
             d1 = d2).
  { intros d1 d2 N1 E1 N2 E2 H.
    rewrite !output_file_relative in H by assumption.
    exact (append_inv_tail _ _ _ H). }
  split; [intros d N E; now apply output_file_relative|].
  split; [exact Inj|].
  unfold main_output_files, main_calls. rewrite map_map. cbn [fst snd].
  unfold subtypes. cbn [map].
  repeat constructor; cbn [In]; intros I;
    repeat match goal with
      | H : _ \/ _ |- _ => destruct H
      | H : False |- _ => destruct H
      | H : output_file _ _ _ = output_file _ _ _ |- _ =>
          apply Inj in H; try discriminate; try reflexivity
      end.
Qed.

Lemma relative_tag_paths_witness :
  (forall d,
      d <> EmptyString -> PosixPath.endswith PosixPath.sep d = false ->
      output_file (fun s => s) d (Some "../x") =
        (d ++ String PosixPath.sep "../x" ++
           (if PosixPath.endswith PosixPath.sep "../x" then "lineages.yaml"
            else String PosixPath.sep "lineages.yaml"))%string) /\
  (forall d1 d2,
      d1 <> EmptyString -> PosixPath.endswith PosixPath.sep d1 = false ->
      d2 <> EmptyString -> PosixPath.endswith PosixPath.sep d2 = false ->
      output_file (fun s => s) d1 (Some "../x")
      = output_file (fun s => s) d2 (Some "../x") ->
      d1 = d2) /\
  NoDup (main_output_files (fun s => s) (Some "../x")).
Proof.
  apply (relative_tag_paths (fun s => s) "../x").
  - discriminate.
  - reflexivity.
Defined.

(** X14.  The hierarchy file never takes the place of a downloaded
    table: whatever the output directories and the tag, the path the table
    is saved at differs from the path the hierarchy is written to. *)
Theorem table_and_hierarchy_apart str_of_path d1 d2 dataset_tag :
  save_path d1 <> output_file str_of_path d2 dataset_tag.
Proof.
  assert (V : forall a, PosixPath.endswith "v" (save_path a) = true).
  { intros a. unfold save_path.
    rewrite join_relative by reflexivity.
    rewrite endswith_append;
      [|destruct ((a =? EmptyString)
                  || PosixPath.endswith PosixPath.sep a); discriminate].
    now destruct ((a =? EmptyString) || PosixPath.endswith PosixPath.sep a). }
  assert (L : forall a,
             PosixPath.endswith "v" (PosixPath.join a "lineages.yaml")
             = false).
  { intros a. rewrite join_relative by reflexivity.
    rewrite endswith_append;
      [|destruct ((a =? EmptyString)
                  || PosixPath.endswith PosixPath.sep a); discriminate].
    now destruct ((a =? EmptyString) || PosixPath.endswith PosixPath.sep a). }
  intros E. pose proof (V d1) as H. rewrite E in H.
  unfold output_file in H. rewrite L in H. discriminate.
Qed.

(* ================================================================== *)
(** * The text of the file *)

Lemma concat_empty_cons x xs :
  String.concat EmptyString (x :: xs)
  = (x ++ String.concat EmptyString xs)%string.
Proof. destruct xs; simpl; [now rewrite append_nil_r | reflexivity]. Qed.

Lemma concat_empty_app xs ys :
  String.concat EmptyString (xs ++ ys)
  = (String.concat EmptyString xs ++ String.concat EmptyString ys)%string.
Proof.
  induction xs as [|x xs IH]; [reflexivity|].
  change ((x :: xs) ++ ys) with (x :: (xs ++ ys)).
  now rewrite !concat_empty_cons, IH, append_assoc.
Qed.

Lemma file_text_app repr_str a b :
  file_text repr_str (a ++ b)
  = (file_text repr_str a ++ file_text repr_str b)%string.
Proof. unfold file_text. now rewrite map_app, concat_empty_app. Qed.


(** The text of the block of a node without alias and with at most one
    parent. *)
Lemma file_text_block repr_str name parent :
  file_text repr_str (block name (mk_node [] (parents_of parent)))
  = block_text name parent.
Proof.
  destruct parent as [p|]; unfold block, block_text, file_text;
    cbn [parents aliases parents_of map written];
    rewrite !concat_empty_cons; cbn [String.concat];
    unfold repr_list; cbn [map String.concat];
    rewrite ?append_assoc, ?append_nil_r; reflexivity.
Qed.


(** X16.  A column with no value at all, empty or with missing cells
    only, gives the hierarchy of the two sentinels, and the file is their
    two blocks, [None] first. *)
Theorem column_of_missing_values repr_str col :
  forallb (fun v => match v with None => true | Some _ => false end) col
  = true ->
  load_lineage_column col
  = Ok [("unassigned", mk_node [] []); ("None", mk_node [] [])] /\
  exists out,
    generate_hierarchy_file
      [("unassigned", mk_node [] []); ("None", mk_node [] [])] = Ok out /\
    names_written out = ["None"; "unassigned"] /\
    file_text repr_str out
    = (block_text "None" None ++ block_text "unassigned" None)%string.
Proof.
  intros A.
  assert (D : Pd.dropna col = []).
  { induction col as [|v col IH]; [reflexivity|].
    simpl in A. destruct v; [discriminate|]. simpl. now apply IH. }
  split.
  - unfold load_lineage_column. now rewrite D.
  - eexists. split; [reflexivity|]. split; [reflexivity|].
    change (file_text repr_str
              (block "None" (mk_node [] (parents_of None))
               ++ block "unassigned" (mk_node [] (parents_of None)))
            = (block_text "None" None ++ block_text "unassigned" None)%string).
    now rewrite file_text_app, !file_text_block.
Qed.

Lemma column_of_missing_values_witness :
  load_lineage_column [None; None]
  = Ok [("unassigned", mk_node [] []); ("None", mk_node [] [])] /\
  exists out,
    generate_hierarchy_file
      [("unassigned", mk_node [] []); ("None", mk_node [] [])] = Ok out /\
    names_written out = ["None"; "unassigned"] /\
    file_text (fun s => s) out
    = (block_text "None" None ++ block_text "unassigned" None)%string.
Proof.
  apply (column_of_missing_values (fun s => s) [None; None]). reflexivity.
Defined.
